(** * The battery module of the status bar (src/modules/battery.cpp)

    A shallow embedding of [BatteryModule]: its constructor's label wiring,
    the sampler [on_event], the format selection [get_format] and the
    animation thread [animation_thread_runner], followed by the properties
    proved about them.

    Numbers.  The C++ code computes with [double] and [float].  A finite
    floating-point number is represented by the rational it denotes, and
    every operation that rounds is followed by an explicit rounding to 53 or
    24 significant bits (round to nearest, ties to even).  The exponent range
    is not bounded: the sampler clamps into [0,100] and truncates, which sends
    an overflowed and a huge value alike to 100 and a subnormal and a tiny
    value alike to 0, and the frame period divides a 32-bit integer by 1000.
    A conversion to [int] that C++ leaves undefined (of a NaN, of a value out
    of range) gives what the x86 conversion instructions give, [INT_MIN].

    Threads.  [on_event] runs on the notification thread and
    [animation_thread_runner] on a thread of its own.  Each is embedded as a
    sequential program that records the events it performs (lock operations,
    accesses to the shared snapshot, log lines, sleeps, broadcasts); what the
    animation thread reads from memory that other threads write is supplied
    by a list of observations. *)

From Stdlib Require Import ZArith QArith Qround Qpower Qabs Lia Lqa.
From Stdlib Require Import Bool List String Ascii DecimalString.
Import ListNotations.

(** ** Floating-point values *)

Module Float.

Local Open Scope Q_scope.

(** Floor of the binary logarithm of a positive rational. *)
Definition mag (q : Q) : Z :=
  let k := (Z.log2 (Qnum q) - Z.log2 (Zpos (Qden q)))%Z in
  if Qle_bool (2 ^ k) q then k else (k - 1)%Z.

(** Nearest integer, ties to even. *)
Definition rne (s : Q) : Z :=
  let f := Qfloor s in
  match Qcompare (s - inject_Z f) (1 # 2) with
  | Lt => f
  | Gt => (f + 1)%Z
  | Eq => if Z.even f then f else (f + 1)%Z
  end.

(** Rounding of a positive rational to [p] significant bits. *)
Definition round_pos (p : Z) (q : Q) : Q :=
  let c := (mag q - p + 1)%Z in
  inject_Z (rne (q * 2 ^ (- c))) * 2 ^ c.

(** Rounding to [p] significant bits, as a fraction in lowest terms. *)
Definition round_ne (p : Z) (q : Q) : Q :=
  Qred match Qnum q with
       | Z0 => 0
       | Zpos _ => round_pos p q
       | Zneg _ => - round_pos p (- q)
       end.

(** A [double] or [float] value: finite, infinite or not a number. *)
Inductive fp : Type :=
| Fin (value : Q)
| Inf (negative : bool)
| NaN.

Definition to_precision (p : Z) (x : fp) : fp :=
  match x with
  | Fin q => Fin (round_ne p q)
  | other => other
  end.

(** Conversion to [double] and to [float]. *)
Definition to_double : fp -> fp := to_precision 53.
Definition to_float : fp -> fp := to_precision 24.


(** Truncation toward zero. *)
Definition trunc (q : Q) : Z :=
  if Qle_bool 0 q then Qfloor q else Qceiling q.

Definition INT_MIN : Z := (- 2 ^ 31)%Z.
Definition INT_MAX : Z := (2 ^ 31 - 1)%Z.

(** Conversion of a floating-point value to [int]: the value is truncated.
    When the truncated value does not fit, or the operand is not finite, C++
    leaves the behaviour undefined; the conversion instructions of x86
    (cvttss2si, cvttsd2si), which the compiled module executes, then give
    [INT_MIN], and so does the embedding.  The result stays optional, as the
    callers are written, though no case is left without a value. *)
Definition to_int (x : fp) : option Z :=
  match x with
  | Fin q =>
      let t := trunc q in
      if ((INT_MIN <=? t) && (t <=? INT_MAX))%Z then Some t else Some INT_MIN
  | _ => Some INT_MIN
  end.

(** [int + 0.5]: the integer is converted to [double] and the sum rounded. *)
Definition add_half (n : Z) : fp :=
  to_double (Fin (round_ne 53 (inject_Z n) + (1 # 2))).

(** [add_half] followed by the conversion to [int] gives the integer back. *)
Definition half_exact (n : Z) : bool :=
  match to_int (add_half n) with
  | Some k => (k =? n)%Z
  | None => false
  end.

(** [float(n) / 1000.0f], a division in single precision. *)
Definition float_div_1000 (n : Z) : Q :=
  round_ne 24 (round_ne 24 (inject_Z n) / 1000).

End Float.

(** ** The C library's [atof] *)

Module Libc.

Import Float.
Local Open Scope Z_scope.

Definition code (c : ascii) : Z := Z.of_nat (nat_of_ascii c).

Definition isspace (c : ascii) : bool :=
  (code c =? 32) || ((9 <=? code c) && (code c <=? 13)).

Definition tolower (c : ascii) : Z :=
  if (65 <=? code c) && (code c <=? 90) then code c + 32 else code c.

Definition digit_value (c : ascii) : option Z :=
  if (48 <=? code c) && (code c <=? 57) then Some (code c - 48) else None.

Definition hex_digit_value (c : ascii) : option Z :=
  match digit_value c with
  | Some d => Some d
  | None =>
      if (97 <=? tolower c) && (tolower c <=? 102)
      then Some (tolower c - 87) else None
  end.

Fixpoint skip_space (s : string) : string :=
  match s with
  | String c rest => if isspace c then skip_space rest else s
  | EmptyString => s
  end.

Definition read_sign (s : string) : bool * string :=
  match s with
  | String "-" rest => (true, rest)
  | String "+" rest => (false, rest)
  | _ => (false, s)
  end.

(** Reads a run of digits: the accumulated value, the number of digits read
    and the rest of the string. *)
Fixpoint read_digits (digit : ascii -> option Z) (base acc count : Z)
    (s : string) : Z * Z * string :=
  match s with
  | String c rest =>
      match digit c with
      | Some d => read_digits digit base (acc * base + d) (count + 1) rest
      | None => (acc, count, s)
      end
  | EmptyString => (acc, count, s)
  end.

(** Digits with an optional radix point: the value of all the digits, how
    many there are, how many follow the point, and the rest. *)
Definition read_mantissa (digit : ascii -> option Z) (base : Z) (s : string)
    : Z * Z * Z * string :=
  let '(ip, ni, r1) := read_digits digit base 0 0 s in
  match r1 with
  | String "." r2 =>
      let '(m, nf, r3) := read_digits digit base ip 0 r2 in
      (m, ni + nf, nf, r3)
  | _ => (ip, ni, 0, r1)
  end.

(** An optional exponent part, introduced by [marker] in either case; it
    counts only when at least one digit follows. *)
Definition read_exponent (marker : Z) (s : string) : Z :=
  match s with
  | String c rest =>
      if tolower c =? marker then
        let '(neg, r1) := read_sign rest in
        let '(e, n, _) := read_digits digit_value 10 0 0 r1 in
        if 0 <? n then (if neg then - e else e) else 0
      else 0
  | EmptyString => 0
  end.

Fixpoint prefix_nocase (word : list Z) (s : string) : bool :=
  match word, s with
  | [], _ => true
  | w :: word', String c rest => (tolower c =? w) && prefix_nocase word' rest
  | _ :: _, EmptyString => false
  end.

Definition hex_prefix (s : string) : option string :=
  match s with
  | String "0" (String c rest) => if tolower c =? 120 then Some rest else None
  | _ => None
  end.

Definition read_decimal (s : string) : fp :=
  let '(m, n, nf, rest) := read_mantissa digit_value 10 s in
  if 0 <? n
  then Fin (inject_Z m * 10 ^ (read_exponent 101 rest - nf))%Q
  else Fin 0%Q.

Definition read_hexadecimal (s : string) : option fp :=
  match hex_prefix s with
  | Some r =>
      let '(m, n, nf, rest) := read_mantissa hex_digit_value 16 r in
      if 0 <? n
      then Some (Fin (inject_Z m * 2 ^ (read_exponent 112 rest - 4 * nf))%Q)
      else None
  | None => None
  end.

(** The number a string starts with, sign apart: "inf", "nan", a hexadecimal
    or a decimal numeral; zero when there is none. *)
Definition read_magnitude (s : string) : fp :=
  if prefix_nocase [105; 110; 102] s then Inf false
  else if prefix_nocase [110; 97; 110] s then NaN
  else match read_hexadecimal s with
       | Some x => x
       | None => read_decimal s
       end.

Definition negate (x : fp) : fp :=
  match x with
  | Fin q => Fin (- q)%Q
  | Inf neg => Inf (negb neg)
  | NaN => NaN
  end.

Definition strtod (s : string) : fp :=
  let '(neg, rest) := read_sign (skip_space s) in
  let x := read_magnitude rest in
  to_double (if neg then negate x else x).

Definition atof (s : string) : fp := strtod s.

(** [std::to_string] of an [int]. *)
Definition to_string (n : Z) : string := NilZero.string_of_int (Z.to_int n).

End Libc.

(** ** Helpers of the repository that live outside battery.cpp *)

Module Utils.

Import Float.
Local Open Scope string_scope.

(** Modelled from the spec: [math::cap<float>] of utils/math.hpp, which is
    not among the sources ("numeric clamping utilities"; the value is
    "clamped into [0,100]").  The bounds are finite; an infinite value is
    clamped to the bound on its side, and a NaN, which compares with
    nothing, is returned as it is. *)
Definition cap (value : fp) (min_value max_value : Q) : fp :=
  match value with
  | Fin q =>
      if Qle_bool q min_value then Fin min_value
      else if Qle_bool max_value q then Fin max_value
      else Fin q
  | Inf true => Fin min_value
  | Inf false => Fin max_value
  | NaN => NaN
  end.

Fixpoint replace_from (skip : nat) (needle replacement s : string) : string :=
  match s with
  | EmptyString => EmptyString
  | String c rest =>
      match skip with
      | S k => replace_from k needle replacement rest
      | O =>
          if prefix needle s
          then replacement ++ replace_from (length needle - 1) needle replacement rest
          else String c (replace_from 0 needle replacement rest)
      end
  end.

(** Modelled from the spec: [string::replace] of utils/string.hpp, which is
    not among the sources (a "named placeholder substituted by" a value).
    Every occurrence of a non-empty [needle] is replaced, left to right. *)
Definition string_replace (haystack needle replacement : string) : string :=
  match needle with
  | EmptyString => haystack
  | _ => replace_from 0 needle replacement haystack
  end.

End Utils.

Module Drawtypes.

(** Modelled from the spec: [drawtypes::Label], declared outside the
    sources; a label is "a text template with a percentage placeholder", and
    its tokenized copy has "the placeholder replaced by the current
    percentage value". *)
Record Label : Type := { text : string }.

Definition clone (l : Label) : Label := {| text := text l |}.

Definition set_text (l : Label) (t : string) : Label := {| text := t |}.

Definition replace_token (l : Label) (token replacement : string) : Label :=
  {| text := Utils.string_replace (text l) token replacement |}.

(** Modelled from the spec: [drawtypes::Animation], of which the module uses
    the "configured animation frame rate" only. *)
Record Animation : Type := { get_framerate : Z }.

End Drawtypes.

(** ** The module *)

Module Battery.

Import Float Libc Utils Drawtypes.
Local Open Scope string_scope.

(** Modelled from the spec: the four [STATE_*] constants are declared in
    modules/battery.hpp, which is not among the sources; the spec gives them
    as the enumeration {UNKNOWN, CHARGING, DISCHARGING, FULL}. *)
Inductive ChargeState : Type :=
| STATE_UNKNOWN
| STATE_CHARGING
| STATE_DISCHARGING
| STATE_FULL.

(** Modelled from the spec: the names of the three display formats
    ("charging/discharging/full") are string constants of the same header. *)
Inductive Format : Type :=
| FORMAT_CHARGING
| FORMAT_DISCHARGING
| FORMAT_FULL.

(** Modelled from the spec: the six "recognized output tags", string
    constants of the same header. *)
Inductive Tag : Type :=
| TAG_ANIMATION_CHARGING
| TAG_BAR_CAPACITY
| TAG_RAMP_CAPACITY
| TAG_LABEL_CHARGING
| TAG_LABEL_DISCHARGING
| TAG_LABEL_FULL.

Definition state_eqb (a b : ChargeState) : bool :=
  match a, b with
  | STATE_UNKNOWN, STATE_UNKNOWN
  | STATE_CHARGING, STATE_CHARGING
  | STATE_DISCHARGING, STATE_DISCHARGING
  | STATE_FULL, STATE_FULL => true
  | _, _ => false
  end.

(** The members of [BatteryModule] that the sampler, the format selection
    and the animation thread use (the bar and the ramp, which only [build]
    hands to the builder, are left out).  A [std::unique_ptr] is an
    [option]: [None] is the null pointer. *)
Record BatteryModule : Type := {
  battery : string;
  adapter : string;
  full_at : Z;
  state : ChargeState;
  percentage : Z;
  animation_charging : option Animation;
  label_charging : option Label;
  label_discharging : option Label;
  label_full : option Label;
  label_charging_tokenized : option Label;
  label_discharging_tokenized : option Label;
  label_full_tokenized : option Label
}.

Definition set_state (s : ChargeState) (m : BatteryModule) : BatteryModule :=
  {| battery := battery m; adapter := adapter m; full_at := full_at m;
     state := s; percentage := percentage m;
     animation_charging := animation_charging m;
     label_charging := label_charging m;
     label_discharging := label_discharging m;
     label_full := label_full m;
     label_charging_tokenized := label_charging_tokenized m;
     label_discharging_tokenized := label_discharging_tokenized m;
     label_full_tokenized := label_full_tokenized m |}.

Definition set_percentage (p : Z) (m : BatteryModule) : BatteryModule :=
  {| battery := battery m; adapter := adapter m; full_at := full_at m;
     state := state m; percentage := p;
     animation_charging := animation_charging m;
     label_charging := label_charging m;
     label_discharging := label_discharging m;
     label_full := label_full m;
     label_charging_tokenized := label_charging_tokenized m;
     label_discharging_tokenized := label_discharging_tokenized m;
     label_full_tokenized := label_full_tokenized m |}.

Definition set_label_charging_tokenized (l : option Label) (m : BatteryModule)
    : BatteryModule :=
  {| battery := battery m; adapter := adapter m; full_at := full_at m;
     state := state m; percentage := percentage m;
     animation_charging := animation_charging m;
     label_charging := label_charging m;
     label_discharging := label_discharging m;
     label_full := label_full m;
     label_charging_tokenized := l;
     label_discharging_tokenized := label_discharging_tokenized m;
     label_full_tokenized := label_full_tokenized m |}.

Definition set_label_discharging_tokenized (l : option Label)
    (m : BatteryModule) : BatteryModule :=
  {| battery := battery m; adapter := adapter m; full_at := full_at m;
     state := state m; percentage := percentage m;
     animation_charging := animation_charging m;
     label_charging := label_charging m;
     label_discharging := label_discharging m;
     label_full := label_full m;
     label_charging_tokenized := label_charging_tokenized m;
     label_discharging_tokenized := l;
     label_full_tokenized := label_full_tokenized m |}.

Definition set_label_full_tokenized (l : option Label) (m : BatteryModule)
    : BatteryModule :=
  {| battery := battery m; adapter := adapter m; full_at := full_at m;
     state := state m; percentage := percentage m;
     animation_charging := animation_charging m;
     label_charging := label_charging m;
     label_discharging := label_discharging m;
     label_full := label_full m;
     label_charging_tokenized := label_charging_tokenized m;
     label_discharging_tokenized := label_discharging_tokenized m;
     label_full_tokenized := l |}.

(** *** Construction *)

(** What the constructor asks of its collaborators (configuration lookup,
    the formatter, the drawtypes factories), none of which is among the
    sources: they are inputs of the embedding. *)
Record Config : Type := {
  config_battery : option string;
  config_adapter : option string;
  config_full_at : option Z;
  formatter_has : Tag -> Format -> bool;
  get_config_animation : Tag -> option Animation;
  get_optional_config_label : Tag -> string -> option Label
}.

Definition config_get {A : Type} (value : option A) (default : A) : A :=
  match value with
  | Some v => v
  | None => default
  end.

Definition construct (cfg : Config) : BatteryModule :=
  {| battery := config_get (config_battery cfg) "BAT0";
     adapter := config_get (config_adapter cfg) "ADP1";
     full_at := config_get (config_full_at cfg) 100%Z;
     state := STATE_UNKNOWN;
     percentage := 0%Z;
     animation_charging :=
       if formatter_has cfg TAG_ANIMATION_CHARGING FORMAT_CHARGING
       then get_config_animation cfg TAG_ANIMATION_CHARGING else None;
     label_charging :=
       if formatter_has cfg TAG_LABEL_CHARGING FORMAT_CHARGING
       then get_optional_config_label cfg TAG_LABEL_CHARGING "%percentage%"
       else None;
     label_discharging :=
       if formatter_has cfg TAG_LABEL_DISCHARGING FORMAT_DISCHARGING
       then get_optional_config_label cfg TAG_LABEL_DISCHARGING "%percentage%"
       else None;
     label_full :=
       if formatter_has cfg TAG_LABEL_FULL FORMAT_FULL
       then get_optional_config_label cfg TAG_LABEL_FULL "%percentage%"
       else None;
     label_charging_tokenized := None;
     label_discharging_tokenized := None;
     label_full_tokenized := None |}.

(** The animation thread is started when an animation was configured. *)
Definition starts_animation_thread (m : BatteryModule) : bool :=
  match animation_charging m with
  | Some _ => true
  | None => false
  end.

(** *** Events and the world *)

Inductive Event : Type :=
| Yield
| Lock
| Unlock
| LoadState (s : ChargeState)
| StoreState (s : ChargeState)
| StorePercentage (p : Z)
| Broadcast
| LogTrace (msg : string)
| LogError (msg : string)
| SleepSeconds (d : Q)
| SleepMilliseconds (n : Z).

(** Modelled from the spec: the notification carries an "originating-path
    hint"; its declaration is not among the sources. *)
Record InotifyEvent : Type := { filename : string }.

(** The module, the files, and the events performed so far.  Modelled from
    the spec: [io::file::get_contents] of utils/io.hpp, which is not among
    the sources, gives the content of a file, and a failed "read yields
    empty content". *)
Record World : Type := {
  this : BatteryModule;
  files : string -> string;
  trace : list Event
}.

Inductive Fault : Type :=
| NullDereference
| UndefinedConversion.

Inductive Result (A : Type) : Type :=
| Done (a : A) (w : World)
| Crash (f : Fault).

Arguments Done {A} a w.
Arguments Crash {A} f.

Definition M (A : Type) : Type := World -> Result A.

Definition ret {A : Type} (a : A) : M A := fun w => Done a w.

Definition bind {A B : Type} (c : M A) (k : A -> M B) : M B :=
  fun w =>
    match c w with
    | Done a w' => k a w'
    | Crash f => Crash f
    end.

Notation "x <- c ;; k" := (bind c (fun x => k))
  (at level 61, c at next level, right associativity).
Notation "c ;; k" := (bind c (fun _ => k))
  (at level 61, right associativity).

Definition emit (e : Event) : M unit :=
  fun w => Done tt {| this := this w; files := files w; trace := (trace w ++ [e])%list |}.

Definition log_trace (msg : string) : M unit := emit (LogTrace msg).
Definition log_error (msg : string) : M unit := emit (LogError msg).

Definition get_contents (path : string) : M string :=
  fun w => Done (files w path) w.

Definition member {A : Type} (field : BatteryModule -> A) : M A :=
  fun w => Done (field (this w)) w.

Definition update (f : BatteryModule -> BatteryModule) : M unit :=
  fun w => Done tt {| this := f (this w); files := files w; trace := trace w |}.

(** [p->...] on a [unique_ptr]. *)
Definition deref {A : Type} (p : option A) : M A :=
  match p with
  | Some a => ret a
  | None => fun _ => Crash NullDereference
  end.

(** The result of a conversion whose behaviour may be undefined. *)
Definition defined {A : Type} (x : option A) : M A :=
  match x with
  | Some a => ret a
  | None => fun _ => Crash UndefinedConversion
  end.

Definition is_null {A : Type} (p : option A) : bool :=
  match p with
  | Some _ => false
  | None => true
  end.

Definition when (b : bool) (c : M unit) : M unit := if b then c else ret tt.

Definition empty (s : string) : bool :=
  match s with
  | EmptyString => true
  | _ => false
  end.

Definition deref_member {A : Type} (field : BatteryModule -> option A) : M A :=
  p <- member field ;; deref p.

(** [this->state = s] and [this->percentage = p]. *)
Definition store_state (s : ChargeState) : M unit :=
  emit (StoreState s) ;; update (set_state s).

Definition store_percentage (p : Z) : M unit :=
  emit (StorePercentage p) ;; update (set_percentage p).

(** *** The sampler *)

(** [switch (status[0])] on a non-empty [status]. *)
Definition switch_status (status : string) (state : ChargeState) : ChargeState :=
  match status with
  | String "0" _ => STATE_DISCHARGING
  | String "1" _ => STATE_CHARGING
  | _ => state
  end.

(** [(int) math::cap<float>(std::atof(capacity.c_str()), 0, 100) + 0.5],
    converted to [int]: the cast applies to the clamped value, the sum is a
    [double], and the initialization truncates it. *)
Definition read_percentage (capacity : string) : option Z :=
  match to_int (cap (to_float (atof capacity)) 0 100) with
  | Some n => to_int (add_half n)
  | None => None
  end.

(** The two path templates are macros of the generated config.hpp, which is
    not among the sources: they are inputs of the embedding. *)
Record Paths : Type := {
  PATH_BATTERY_CAPACITY : string;
  PATH_ADAPTER_STATUS : string
}.

Section Sampler.

Variable paths : Paths.

Definition on_event (event : option InotifyEvent) : M bool :=
  match event with
  | Some e => log_trace (filename e)
  | None => ret tt
  end ;;
  let state := STATE_UNKNOWN in
  battery_ <- member battery ;;
  adapter_ <- member adapter ;;
  let path_capacity :=
    string_replace (PATH_BATTERY_CAPACITY paths) "%battery%" battery_ in
  let path_status :=
    string_replace (PATH_ADAPTER_STATUS paths) "%adapter%" adapter_ in
  status <- get_contents path_status ;;
  if empty status then
    log_error ("Failed to read " ++ path_status) ;;
    ret false
  else
    capacity <- get_contents path_capacity ;;
    if empty capacity then
      log_error ("Failed to read " ++ path_capacity) ;;
      ret false
    else
      percentage <- defined (read_percentage capacity) ;;
      let state := switch_status status state in
      full_at_ <- member full_at ;;
      let percentage :=
        if state_eqb state STATE_CHARGING && (full_at_ <=? percentage)%Z
        then 100%Z else percentage in
      let state := if (percentage =? 100)%Z then STATE_FULL else state in
      tokenized <- member label_charging_tokenized ;;
      when (is_null tokenized)
        (l <- deref_member label_charging ;;
         update (set_label_charging_tokenized (Some (clone l)))) ;;
      tokenized <- member label_discharging_tokenized ;;
      when (is_null tokenized)
        (l <- deref_member label_discharging ;;
         update (set_label_discharging_tokenized (Some (clone l)))) ;;
      tokenized <- member label_full_tokenized ;;
      when (is_null tokenized)
        (l <- deref_member label_full ;;
         update (set_label_full_tokenized (Some (clone l)))) ;;
      t <- deref_member label_charging_tokenized ;;
      l <- deref_member label_charging ;;
      update (set_label_charging_tokenized (Some (set_text t (text l)))) ;;
      t <- deref_member label_charging_tokenized ;;
      update (set_label_charging_tokenized
                (Some (replace_token t "%percentage%" (to_string percentage ++ "%")))) ;;
      t <- deref_member label_discharging_tokenized ;;
      l <- deref_member label_discharging ;;
      update (set_label_discharging_tokenized (Some (set_text t (text l)))) ;;
      t <- deref_member label_discharging_tokenized ;;
      update (set_label_discharging_tokenized
                (Some (replace_token t "%percentage%" (to_string percentage ++ "%")))) ;;
      t <- deref_member label_full_tokenized ;;
      l <- deref_member label_full ;;
      update (set_label_full_tokenized (Some (set_text t (text l)))) ;;
      t <- deref_member label_full_tokenized ;;
      update (set_label_full_tokenized
                (Some (replace_token t "%percentage%" (to_string percentage ++ "%")))) ;;
      store_state state ;;
      store_percentage percentage ;;
      ret true.

(** The two paths and what the files hold there. *)
Definition status_path (m : BatteryModule) : string :=
  string_replace (PATH_ADAPTER_STATUS paths) "%adapter%" (adapter m).

Definition capacity_path (m : BatteryModule) : string :=
  string_replace (PATH_BATTERY_CAPACITY paths) "%battery%" (battery m).

Definition status_content (w : World) : string := files w (status_path (this w)).

Definition capacity_content (w : World) : string := files w (capacity_path (this w)).

End Sampler.

(** *** Format selection *)

Definition get_format (m : BatteryModule) : Format :=
  let state_ := state m in
  if state_eqb state_ STATE_FULL then FORMAT_FULL
  else if state_eqb state_ STATE_CHARGING then FORMAT_CHARGING
  else FORMAT_DISCHARGING.

(** *** The animation thread *)

(** What one evaluation of the inner loop's condition, and of the read of
    [state] that follows it, finds in memory that other threads write. *)
Inductive Observation : Type :=
| Disabled
| Enabled (observed : ChargeState).

(** How a run over a finite list of observations ends: the function
    returned, or the list ran out inside the inner loop. *)
Inductive Ending : Type :=
| Exited
| Waiting
| OutOfFuel.

Record Run : Type := { events : list Event; ending : Ending }.

(** [while (this->enabled()) { ... }]: the value of [retries] after the loop,
    the observations left ([None] when they ran out), and the events. *)
Fixpoint inner_loop (dur : Q) (retries : Z) (obs : list Observation)
    : Z * option (list Observation) * list Event :=
  match obs with
  | [] => (retries, None, [])
  | Disabled :: rest => (retries, Some rest, [])
  | Enabled st :: rest =>
      let retries := if (0 <? retries)%Z then 0%Z else retries in
      let body :=
        Lock :: LoadState st ::
        (if state_eqb st STATE_CHARGING
         then [Unlock; Broadcast; SleepSeconds dur]
         else [LogTrace "state != charging"; SleepSeconds dur; Unlock]) in
      let '(r, o, t) := inner_loop dur retries rest in
      (r, o, (body ++ t)%list)
  end.

(** [while (retries-- > 0) { inner loop; sleep_for(500ms); }] *)
Fixpoint outer_loop (fuel : nat) (dur : Q) (retries : Z)
    (obs : list Observation) : Run :=
  if (0 <? retries)%Z then
    match fuel with
    | O => {| events := []; ending := OutOfFuel |}
    | S fuel' =>
        let '(r, o, t) := inner_loop dur (retries - 1) obs in
        match o with
        | None => {| events := t; ending := Waiting |}
        | Some rest =>
            let run := outer_loop fuel' dur r rest in
            {| events := (t ++ SleepMilliseconds 500 :: events run)%list;
               ending := ending run |}
        end
    end
  else {| events := []; ending := Exited |}.

(** The period of the inner loop:
    [duration<double>(float(get_framerate()) / 1000.0f)], in seconds. *)
Definition frame_period (animation : Animation) : Q :=
  float_div_1000 (get_framerate animation).

Definition animation_thread_runner (animation : Animation)
    (obs : list Observation) : Run :=
  let dur := frame_period animation in
  let retries := 5%Z in
  let run := outer_loop (Z.to_nat retries) dur retries obs in
  {| events := Yield :: events run; ending := ending run |}.

(** *** Vocabulary of the properties *)

Definition is_load (e : Event) : bool :=
  match e with
  | LoadState _ => true
  | _ => false
  end.

Definition is_store (e : Event) : bool :=
  match e with
  | StoreState _ | StorePercentage _ => true
  | _ => false
  end.

Definition is_lock_operation (e : Event) : bool :=
  match e with
  | Lock | Unlock => true
  | _ => false
  end.

(** Every access selected by [access] in the events of one thread happens
    while that thread holds [broadcast_lock]; [held] tells whether it holds
    the lock at the start. *)
Fixpoint guarded (access : Event -> bool) (held : bool) (tr : list Event) : bool :=
  match tr with
  | [] => true
  | Lock :: rest => guarded access true rest
  | Unlock :: rest => guarded access false rest
  | e :: rest => (if access e then held else true) && guarded access held rest
  end.

(** The trace line of the optional path hint. *)
Definition hint (event : option InotifyEvent) : list Event :=
  match event with
  | Some e => [LogTrace (filename e)]
  | None => []
  end.

(** The world after a sample that failed with the error line [msg]. *)
Definition logged (event : option InotifyEvent) (w : World) (msg : string) : World :=
  {| this := this w; files := files w;
     trace := (trace w ++ hint event ++ [LogError msg])%list |}.

(** The world after a successful sample that installed the module [m']. *)
Definition published (event : option InotifyEvent) (w : World)
    (m' : BatteryModule) : World :=
  {| this := m'; files := files w;
     trace := (trace w ++ hint event ++
               [StoreState (state m'); StorePercentage (percentage m')])%list |}.

(** Lines 124-128 of the sampler as a function of the raw state, the
    threshold and the percentage read. *)
Definition normalize (raw : ChargeState) (threshold p : Z) : ChargeState * Z :=
  let p' :=
    if state_eqb raw STATE_CHARGING && (threshold <=? p)%Z then 100%Z else p in
  (if (p' =? 100)%Z then STATE_FULL else raw, p').

(** A template with the placeholder replaced by ["<p>%"]. *)
Definition tokenize (template : Label) (p : Z) : Label :=
  replace_token template "%percentage%" (to_string p ++ "%").

(** The module after a successful sample that read [status] and [p] with
    the three templates [lc], [ld] and [lf]. *)
Definition sampled (m : BatteryModule) (status : string) (p : Z)
    (lc ld lf : Label) : BatteryModule :=
  let '(s, p') := normalize (switch_status status STATE_UNKNOWN) (full_at m) p in
  {| battery := battery m; adapter := adapter m; full_at := full_at m;
     state := s; percentage := p';
     animation_charging := animation_charging m;
     label_charging := label_charging m;
     label_discharging := label_discharging m;
     label_full := label_full m;
     label_charging_tokenized := Some (tokenize lc p');
     label_discharging_tokenized := Some (tokenize ld p');
     label_full_tokenized := Some (tokenize lf p') |}.

(** *** Schedules of the two threads *)

Inductive Thread : Type :=
| Coordinator
| Sampler.

Definition thread_eqb (a b : Thread) : bool :=
  match a, b with
  | Coordinator, Coordinator | Sampler, Sampler => true
  | _, _ => false
  end.

(** A schedule interleaves the events of the two threads. *)
Definition Step : Type := (Thread * Event)%type.

Definition project (t : Thread) (sched : list Step) : list Event :=
  map snd (filter (fun s => thread_eqb (fst s) t) sched).

(** The schedule respects the lock: it is taken only when free and
    released only by the thread that holds it. *)
Fixpoint respects_lock (holder : option Thread) (sched : list Step) : bool :=
  match sched with
  | [] => true
  | (t, Lock) :: rest =>
      match holder with
      | None => respects_lock (Some t) rest
      | Some _ => false
      end
  | (t, Unlock) :: rest =>
      match holder with
      | Some h => thread_eqb h t && respects_lock None rest
      | None => false
      end
  | _ :: rest => respects_lock holder rest
  end.

(** Every read of [state] finds the value stored last. *)
Fixpoint coherent (current : ChargeState) (sched : list Step) : bool :=
  match sched with
  | [] => true
  | (_, LoadState s) :: rest => state_eqb s current && coherent current rest
  | (_, StoreState s) :: rest => coherent s rest
  | _ :: rest => coherent current rest
  end.

(** Some thread stores into the snapshot while the other one holds the
    lock. *)
Fixpoint stores_under_foreign_lock (holder : option Thread)
    (sched : list Step) : bool :=
  match sched with
  | [] => false
  | (t, Lock) :: rest => stores_under_foreign_lock (Some t) rest
  | (_, Unlock) :: rest => stores_under_foreign_lock None rest
  | (t, e) :: rest =>
      (is_store e &&
       match holder with
       | Some h => negb (thread_eqb h t)
       | None => false
       end)
      || stores_under_foreign_lock holder rest
  end.

(** The percentage the spec describes: the clamped value rounded half up. *)
Definition round_half_up (q : Q) : Z := Qfloor (q + (1 # 2)).

Definition spec_percentage (capacity : string) : option Z :=
  match cap (atof capacity) 0 100 with
  | Fin q => Some (round_half_up q)
  | _ => None
  end.

(** The snapshot that [on_event] publishes. *)
Definition snapshot (m : BatteryModule) : ChargeState * Z :=
  (state m, percentage m).

Definition tokenized_labels (m : BatteryModule)
    : option Label * option Label * option Label :=
  (label_charging_tokenized m, label_discharging_tokenized m,
   label_full_tokenized m).

Definition templates (m : BatteryModule)
    : option Label * option Label * option Label :=
  (label_charging m, label_discharging m, label_full m).

(** The world a sample leaves behind; the world it started in when it
    crashed. *)
Definition world_after (paths : Paths) (event : option InotifyEvent)
    (w : World) : World :=
  match on_event paths event w with
  | Done _ w' => w'
  | Crash _ => w
  end.

(** Every broadcast in a trace directly follows a read of [state], made
    with the lock held, that found [STATE_CHARGING]. *)
Definition justified (tr : list Event) : Prop :=
  forall pre post, tr = (pre ++ Broadcast :: post)%list ->
  exists pre', pre = (pre' ++ [Lock; LoadState STATE_CHARGING; Unlock])%list.

End Battery.

(** ** Concrete inputs *)

Module Examples.

Import Drawtypes Battery.
Local Open Scope string_scope.

Definition sysfs_paths : Paths :=
  {| PATH_BATTERY_CAPACITY := "/sys/class/power_supply/%battery%/capacity";
     PATH_ADAPTER_STATUS := "/sys/class/power_supply/%adapter%/online" |}.

(** A file system that holds the two files of BAT0 and ADP1. *)
Definition sysfs (status capacity : string) (path : string) : string :=
  if String.eqb path "/sys/class/power_supply/ADP1/online" then status
  else if String.eqb path "/sys/class/power_supply/BAT0/capacity" then capacity
  else "".

(** A configuration whose formats hold every tag. *)
Definition every_tag (threshold : option Z) : Config :=
  {| config_battery := None;
     config_adapter := None;
     config_full_at := threshold;
     formatter_has := fun _ _ => true;
     get_config_animation := fun _ => Some {| get_framerate := 750 |};
     get_optional_config_label := fun _ def => Some {| text := def |} |}.

(** A configuration whose full format holds the bar only. *)
Definition bar_only_when_full : Config :=
  {| config_battery := None;
     config_adapter := None;
     config_full_at := None;
     formatter_has := fun tag format =>
       match tag, format with
       | TAG_LABEL_FULL, FORMAT_FULL => false
       | _, _ => true
       end;
     get_config_animation := fun _ => Some {| get_framerate := 750 |};
     get_optional_config_label := fun _ def => Some {| text := def |} |}.

Definition fresh_world (cfg : Config) (status capacity : string) : World :=
  {| this := construct cfg; files := sysfs status capacity; trace := [] |}.

(** The world after [on_event(nullptr)]. *)
Definition sample (w : World) : World := world_after sysfs_paths None w.

Definition charging_87 : World := fresh_world (every_tag None) "1" "87".
Definition charging_99_6_full_at_95 : World :=
  fresh_world (every_tag (Some 95%Z)) "1" "99.6".
Definition discharging_99_6 : World := fresh_world (every_tag None) "0" "99.6".
Definition status_unreadable : World := fresh_world (every_tag None) "" "87".
Definition unknown_87 : World := fresh_world (every_tag None) "2" "87".
Definition unknown_100 : World := fresh_world (every_tag None) "2" "100".
Definition charging_87_no_full_label : World :=
  fresh_world bar_only_when_full "1" "87".

Definition every_750_ms : Animation := {| get_framerate := 750 |}.
Definition every_500_ms : Animation := {| get_framerate := 500 |}.

End Examples.

(** ** The renderer's queries *)

Module Build.

Import Drawtypes Battery.
Local Open Scope string_scope.

Section Build.

(** [drawtypes::Bar] and [drawtypes::Ramp] are handed to the builder as they
    are; the module never looks inside them. *)
Variable Bar : Type.
Variable Ramp : Type.

(** The strings [TAG_*], macros of modules/battery.hpp, which is not among
    the sources: they are inputs of the embedding. *)
Variable tag_string : Tag -> string.

(** The two members of [BatteryModule] that only [build] reads. *)
Record Renderables : Type := {
  bar_capacity : option Bar;
  ramp_capacity : option Ramp
}.

(** A call of one of the overloads of [Builder::node]. *)
Inductive Node : Type :=
| NodeAnimation (animation : option Animation)
| NodeBar (bar : option Bar) (percentage : Z)
| NodeRamp (ramp : option Ramp) (percentage : Z)
| NodeLabel (label : option Label).

(** [build(builder, tag)]: the value returned and the calls made on the
    builder. *)
Definition build (m : BatteryModule) (r : Renderables) (tag : string)
    : bool * list Node :=
  if String.eqb tag (tag_string TAG_ANIMATION_CHARGING) then
    (true, [NodeAnimation (animation_charging m)])
  else if String.eqb tag (tag_string TAG_BAR_CAPACITY) then
    (true, [NodeBar (bar_capacity r) (percentage m)])
  else if String.eqb tag (tag_string TAG_RAMP_CAPACITY) then
    (true, [NodeRamp (ramp_capacity r) (percentage m)])
  else if String.eqb tag (tag_string TAG_LABEL_CHARGING) then
    (true, [NodeLabel (label_charging_tokenized m)])
  else if String.eqb tag (tag_string TAG_LABEL_DISCHARGING) then
    (true, [NodeLabel (label_discharging_tokenized m)])
  else if String.eqb tag (tag_string TAG_LABEL_FULL) then
    (true, [NodeLabel (label_full_tokenized m)])
  else
    (false, []).

(** What [build] hands over for each of the six tags. *)
Definition node_of (m : BatteryModule) (r : Renderables) (t : Tag) : Node :=
  match t with
  | TAG_ANIMATION_CHARGING => NodeAnimation (animation_charging m)
  | TAG_BAR_CAPACITY => NodeBar (bar_capacity r) (percentage m)
  | TAG_RAMP_CAPACITY => NodeRamp (ramp_capacity r) (percentage m)
  | TAG_LABEL_CHARGING => NodeLabel (label_charging_tokenized m)
  | TAG_LABEL_DISCHARGING => NodeLabel (label_discharging_tokenized m)
  | TAG_LABEL_FULL => NodeLabel (label_full_tokenized m)
  end.

End Build.

Arguments NodeAnimation {Bar Ramp} animation.
Arguments NodeBar {Bar Ramp} bar percentage.
Arguments NodeRamp {Bar Ramp} ramp percentage.
Arguments NodeLabel {Bar Ramp} label.
Arguments bar_capacity {Bar Ramp} r.
Arguments ramp_capacity {Bar Ramp} r.
Arguments build {Bar Ramp} tag_string m r tag.
Arguments node_of {Bar Ramp} m r t.

(** The tag names of a configuration file. *)
Definition angle_tags (t : Tag) : string :=
  match t with
  | TAG_ANIMATION_CHARGING => "<animation-charging>"
  | TAG_BAR_CAPACITY => "<bar-capacity>"
  | TAG_RAMP_CAPACITY => "<ramp-capacity>"
  | TAG_LABEL_CHARGING => "<label-charging>"
  | TAG_LABEL_DISCHARGING => "<label-discharging>"
  | TAG_LABEL_FULL => "<label-full>"
  end.

Definition no_renderables : Renderables unit unit :=
  {| bar_capacity := None; ramp_capacity := None |}.

End Build.

(** ** The module over its lifetime *)

Module Lifecycle.

Import Drawtypes Battery.
Local Open Scope string_scope.
Local Open Scope Z_scope.

(** A notification arrives with the files as they are at that moment. *)
Definition Notification : Type := (option InotifyEvent * (string -> string))%type.

Definition with_files (fs : string -> string) (w : World) : World :=
  {| this := this w; files := fs; trace := trace w |}.

(** The world after the notifications were handled in turn by [on_event];
    [None] when one of the calls crashed. *)
Fixpoint deliver (paths : Paths) (ns : list Notification) (w : World)
    : option World :=
  match ns with
  | [] => Some w
  | (event, fs) :: rest =>
      match on_event paths event (with_files fs w) with
      | Done _ w' => deliver paths rest w'
      | Crash _ => None
      end
  end.

(** The world right after the constructor. *)
Definition constructed (cfg : Config) : World :=
  {| this := construct cfg; files := fun _ => ""; trace := [] |}.

(** No sample has succeeded yet. *)
Definition never_sampled (m : BatteryModule) : Prop :=
  tokenized_labels m = (None, None, None) /\
  snapshot m = (STATE_UNKNOWN, 0).

(** The three tokenized labels show the percentage of the snapshot. *)
Definition labels_in_sync (m : BatteryModule) : Prop :=
  exists lc ld lf,
    templates m = (Some lc, Some ld, Some lf) /\
    tokenized_labels m =
      (Some (tokenize lc (percentage m)), Some (tokenize ld (percentage m)),
       Some (tokenize lf (percentage m))).

(** What line 117 leaves for a capacity that [atof] reads as NaN: the cast
    gives [INT_MIN], and the 0.5 added and truncated again leaves this. *)
Definition NAN_PERCENTAGE : Z := -2147483647.

(** The values a percentage takes. *)
Definition percentage_value (p : Z) : Prop :=
  0 <= p <= 100 \/ p = NAN_PERCENTAGE.

Definition consistent (m : BatteryModule) : Prop :=
  percentage_value (percentage m) /\
  (state m = STATE_FULL <-> percentage m = 100) /\
  (state m = STATE_CHARGING -> percentage m < full_at m) /\
  (never_sampled m \/ labels_in_sync m).

(** One of the two files of the module reads as empty. *)
Definition read_fails (paths : Paths) (m : BatteryModule) (fs : string -> string)
    : Prop :=
  fs (status_path paths m) = "" \/ fs (capacity_path paths m) = "".

Definition is_error (e : Event) : bool :=
  match e with
  | LogError _ => true
  | _ => false
  end.

End Lifecycle.

(** ** Vocabulary for the capacity file and for the animation thread *)

Module Shapes.

Import Float Libc Battery.
Local Open Scope string_scope.

(** The content of a capacity file that holds the integer [n]: its decimal
    digits and a newline. *)
Definition decimal_line (n : Z) : string := to_string n ++ String "010" "".

Definition reads_back (n : Z) : bool :=
  match read_percentage (decimal_line n) with
  | Some p => (p =? n)%Z
  | None => false
  end.

(** The characters a number, as [atof] reads it, can start with: white
    space, a sign, a digit, the point, and the first letter of "inf" and of
    "nan". *)
Definition starts_number (c : ascii) : bool :=
  isspace c
  || match digit_value c with Some _ => true | None => false end
  || (code c =? 43)%Z || (code c =? 45)%Z || (code c =? 46)%Z
  || (tolower c =? 105)%Z || (tolower c =? 110)%Z.

(** One pass of the inner loop that read the state [st]. *)
Definition iteration (dur : Q) (st : ChargeState) : list Event :=
  Lock :: LoadState st ::
  (if state_eqb st STATE_CHARGING
   then [Unlock; Broadcast; SleepSeconds dur]
   else [LogTrace "state != charging"; SleepSeconds dur; Unlock]).

Definition ticks (dur : Q) (sts : list ChargeState) : list Event :=
  flat_map (iteration dur) sts.

(** The states read by the passes of the inner loop that a list of
    observations starts with. *)
Fixpoint enabled_prefix (obs : list Observation) : list ChargeState :=
  match obs with
  | Enabled st :: rest => st :: enabled_prefix rest
  | _ => []
  end.

(** [if (retries > 0) retries = 0;] *)
Definition collapse (retries : Z) : Z :=
  if (0 <? retries)%Z then 0%Z else retries.

(** What follows the read of the state [st] in a pass of the inner loop. *)
Definition after_load (dur : Q) (st : ChargeState) : list Event :=
  if state_eqb st STATE_CHARGING
  then [Unlock; Broadcast; SleepSeconds dur]
  else [LogTrace "state != charging"; SleepSeconds dur; Unlock].

(** [sleep_for(500ms)] *)
Definition cooldown : Event := SleepMilliseconds 500.

(** A block of a trace: a cool-down or one pass of the inner loop. *)
Definition block (dur : Q) (b : option ChargeState) : list Event :=
  match b with
  | Some st => iteration dur st
  | None => [cooldown]
  end.

Definition is_cooldown (e : Event) : bool :=
  match e with
  | SleepMilliseconds _ => true
  | _ => false
  end.

Definition is_broadcast (e : Event) : bool :=
  match e with
  | Broadcast => true
  | _ => false
  end.

(** The events of one thread take the lock only when the thread does not
    hold it and release it only when it does; the result tells whether the
    thread holds the lock at the end. *)
Fixpoint lock_protocol (held : bool) (tr : list Event) : option bool :=
  match tr with
  | [] => Some held
  | Lock :: rest => if held then None else lock_protocol true rest
  | Unlock :: rest => if held then lock_protocol false rest else None
  | _ :: rest => lock_protocol held rest
  end.

(** No event selected by [access] happens while the thread holds the
    lock. *)
Fixpoint outside_lock (access : Event -> bool) (held : bool) (tr : list Event)
    : bool :=
  match tr with
  | [] => true
  | Lock :: rest => outside_lock access true rest
  | Unlock :: rest => outside_lock access false rest
  | e :: rest => (if access e then negb held else true) && outside_lock access held rest
  end.

End Shapes.

(** ** More concrete inputs *)

Module Scenarios.

Import Drawtypes Battery Examples Lifecycle.
Local Open Scope string_scope.



(** A good sample, a failed read of the status file, and a full battery on
    a disconnected adapter. *)
Definition three_notifications : list Notification :=
  [(None, sysfs "1" "87");
   (Some {| filename := "capacity" |}, sysfs "" "87");
   (None, sysfs "0" "100")].

(** A good sample and then a capacity that reads as NaN. *)
Definition good_then_nan : list Notification :=
  [(None, sysfs "1" "87"); (None, sysfs "1" "nan")].

(** Two notifications that find nothing to read. *)
Definition two_failed_reads : list Notification :=
  [(None, sysfs "" "87"); (Some {| filename := "online" |}, sysfs "1" "")].

(** The world after the notifications, from the constructor on. *)
Definition delivered (cfg : Config) (ns : list Notification) : World :=
  match deliver sysfs_paths ns (constructed cfg) with
  | Some w => w
  | None => constructed cfg
  end.

End Scenarios.

(** * Properties *)

(** ** Rounding *)

Module FloatFacts.

Import Float.
Local Open Scope Q_scope.

Lemma pow2_pos (z : Z) : 0 < 2 ^ z.
Proof. apply Qpower_0_lt. reflexivity. Qed.

Lemma pow2_add (a b : Z) : 2 ^ (a + b) == 2 ^ a * 2 ^ b.
Proof. apply Qpower_plus. discriminate. Qed.

Lemma pow2_inject (a : Z) : (0 <= a)%Z -> inject_Z (2 ^ a) == 2 ^ a.
Proof. intros H. now rewrite Zpower_Qpower. Qed.

Lemma pow2_lt (a b : Z) : (a < b)%Z -> 2 ^ a < 2 ^ b.
Proof. intros H. apply Qpower_lt_compat_l; [exact H | reflexivity]. Qed.

Lemma pow2_le (a b : Z) : (a <= b)%Z -> 2 ^ a <= 2 ^ b.
Proof. intros H. apply Qpower_le_compat_l; [exact H | discriminate]. Qed.

Lemma pow2_succ (a : Z) : 2 ^ (a + 1) == 2 * 2 ^ a.
Proof. rewrite pow2_add. change (2 ^ 1) with 2. ring. Qed.

Lemma Q_as_fraction (q : Q) : q * inject_Z (Zpos (Qden q)) == inject_Z (Qnum q).
Proof.
  destruct q as [n d]. unfold Qeq, Qmult, inject_Z. simpl. lia.
Qed.

Lemma mag_spec (q : Q) : 0 < q -> 2 ^ mag q <= q /\ q < 2 ^ (mag q + 1).
Proof.
  intros Hq.
  pose proof (Q_as_fraction q) as Hfrac.
  assert (Hn : (0 < Qnum q)%Z).
  { destruct q as [n d]. unfold Qlt in Hq. simpl in *. lia. }
  set (a := Z.log2 (Qnum q)). set (b := Z.log2 (Zpos (Qden q))).
  assert (Ha : (0 <= a)%Z) by apply Z.log2_nonneg.
  assert (Hb : (0 <= b)%Z) by apply Z.log2_nonneg.
  destruct (Z.log2_spec (Qnum q) Hn) as [Ha1 Ha2]. fold a in Ha1, Ha2.
  destruct (Z.log2_spec (Zpos (Qden q)) eq_refl) as [Hb1 Hb2]. fold b in Hb1, Hb2.
  rewrite Zle_Qle in Ha1, Hb1. rewrite Zlt_Qlt in Ha2, Hb2.
  replace (Z.succ a) with (a + 1)%Z in Ha2 by lia.
  replace (Z.succ b) with (b + 1)%Z in Hb2 by lia.
  rewrite pow2_inject in Ha1, Hb1, Ha2, Hb2 by lia.
  set (D := inject_Z (Zpos (Qden q))) in *. set (N := inject_Z (Qnum q)) in *.
  assert (HD : 0 < D) by reflexivity.
  unfold mag. fold a b.
  destruct (Qle_bool (2 ^ (a - b)) q) eqn:E.
  - apply Qle_bool_iff in E. split; [exact E |].
    apply (Qmult_lt_r _ _ D HD). rewrite Hfrac.
    assert (H1 : 2 ^ (a - b + 1) * 2 ^ b == 2 ^ (a + 1)).
    { rewrite <- pow2_add. now replace (a - b + 1 + b)%Z with (a + 1)%Z by lia. }
    pose proof (pow2_pos (a - b + 1)). pose proof (pow2_pos b). nra.
  - assert (E' : q < 2 ^ (a - b)).
    { apply Qnot_le_lt. intros C. apply Qle_bool_iff in C. congruence. }
    split.
    + apply (Qmult_le_r _ _ D HD). rewrite Hfrac.
      assert (H1 : 2 ^ (a - b - 1) * 2 ^ (b + 1) == 2 ^ a).
      { rewrite <- pow2_add. now replace (a - b - 1 + (b + 1))%Z with a by lia. }
      pose proof (pow2_pos (a - b - 1)). pose proof (pow2_pos (b + 1)). nra.
    + now replace (a - b - 1 + 1)%Z with (a - b)%Z by lia.
Qed.

Lemma mag_monotone (q1 q2 : Q) : 0 < q1 -> q1 <= q2 -> (mag q1 <= mag q2)%Z.
Proof.
  intros H1 H12.
  assert (H2 : 0 < q2) by lra.
  destruct (mag_spec q1 H1) as [L1 _]. destruct (mag_spec q2 H2) as [_ U2].
  assert (H : 2 ^ mag q1 < 2 ^ (mag q2 + 1)) by lra.
  apply Qpower_lt_compat_l_inv in H; [lia | reflexivity].
Qed.

Lemma rne_bounds (s : Q) : (Qfloor s <= rne s <= Qfloor s + 1)%Z.
Proof.
  unfold rne. destruct (Qcompare _ _); [destruct (Z.even _) | |]; lia.
Qed.

Lemma rne_Z (z : Z) : rne (inject_Z z) = z.
Proof.
  unfold rne. rewrite Qfloor_Z.
  assert (E : inject_Z z - inject_Z z == 0) by ring.
  rewrite E. reflexivity.
Qed.

Lemma rne_monotone (s1 s2 : Q) : s1 <= s2 -> (rne s1 <= rne s2)%Z.
Proof.
  intros H.
  pose proof (Qfloor_resp_le _ _ H) as Hf.
  destruct (Z.eq_dec (Qfloor s1) (Qfloor s2)) as [E | NE].
  - unfold rne. rewrite E.
    destruct (Qcompare_spec (s1 - inject_Z (Qfloor s2)) (1 # 2)) as [A | A | A];
      destruct (Qcompare_spec (s2 - inject_Z (Qfloor s2)) (1 # 2)) as [B | B | B];
      try destruct (Z.even (Qfloor s2)); try lia; exfalso; lra.
  - pose proof (rne_bounds s1). pose proof (rne_bounds s2). lia.
Qed.

Lemma rne_ge (z : Z) (s : Q) : inject_Z z <= s -> (z <= rne s)%Z.
Proof. intros H. rewrite <- (rne_Z z). now apply rne_monotone. Qed.

Lemma rne_le (z : Z) (s : Q) : s <= inject_Z z -> (rne s <= z)%Z.
Proof. intros H. rewrite <- (rne_Z z). now apply rne_monotone. Qed.

Lemma scale_back (x : Q) (c : Z) : x * 2 ^ (- c) * 2 ^ c == x.
Proof.
  rewrite <- Qmult_assoc, <- pow2_add.
  replace (- c + c)%Z with 0%Z by lia. change (2 ^ 0) with 1. ring.
Qed.

Section RoundPos.
Variable p : Z.
Hypothesis p_pos : (1 <= p)%Z.

Lemma round_pos_bounds (q : Q) :
  0 < q -> 2 ^ mag q <= round_pos p q <= 2 ^ (mag q + 1).
Proof.
  intros Hq. destruct (mag_spec q Hq) as [L U].
  unfold round_pos. set (c := (mag q - p + 1)%Z).
  pose proof (pow2_pos c) as Hc. pose proof (pow2_pos (- c)) as Hc'.
  assert (E1 : inject_Z (2 ^ (p - 1)) * 2 ^ c == 2 ^ mag q).
  { rewrite pow2_inject by lia. rewrite <- pow2_add. now replace (p - 1 + c)%Z with (mag q) by lia. }
  assert (E2 : inject_Z (2 ^ p) * 2 ^ c == 2 ^ (mag q + 1)).
  { rewrite pow2_inject by lia. rewrite <- pow2_add. now replace (p + c)%Z with (mag q + 1)%Z by lia. }
  split.
  - rewrite <- E1. apply Qmult_le_r; [exact Hc |]. rewrite <- Zle_Qle. apply rne_ge.
    apply (Qmult_le_r _ _ (2 ^ c) Hc). rewrite scale_back, E1. exact L.
  - rewrite <- E2. apply Qmult_le_r; [exact Hc |]. rewrite <- Zle_Qle. apply rne_le.
    apply (Qmult_le_r _ _ (2 ^ c) Hc). rewrite scale_back, E2. lra.
Qed.

Lemma round_pos_positive (q : Q) : 0 < q -> 0 < round_pos p q.
Proof.
  intros Hq. destruct (round_pos_bounds q Hq) as [L _].
  pose proof (pow2_pos (mag q)). lra.
Qed.

Lemma round_pos_monotone (q1 q2 : Q) :
  0 < q1 -> q1 <= q2 -> round_pos p q1 <= round_pos p q2.
Proof.
  intros H1 H12. assert (H2 : 0 < q2) by lra.
  pose proof (mag_monotone q1 q2 H1 H12) as Hm.
  destruct (Z.eq_dec (mag q1) (mag q2)) as [E | NE].
  - unfold round_pos. rewrite E. set (c := (mag q2 - p + 1)%Z).
    apply Qmult_le_r; [apply pow2_pos |]. rewrite <- Zle_Qle. apply rne_monotone.
    apply Qmult_le_r; [apply pow2_pos | exact H12].
  - destruct (round_pos_bounds q1 H1) as [_ U1].
    destruct (round_pos_bounds q2 H2) as [L2 _].
    assert (2 ^ (mag q1 + 1) <= 2 ^ mag q2) by (apply pow2_le; lia).
    lra.
Qed.

Lemma sign_pos (q : Q) : 0 < q <-> exists n, Qnum q = Zpos n.
Proof.
  destruct q as [[|n|n] d]; unfold Qlt; simpl; split; intros H;
    try lia; try (destruct H; discriminate); eauto.
Qed.

Lemma round_ne_monotone (q1 q2 : Q) : q1 <= q2 -> round_ne p q1 <= round_ne p q2.
Proof.
  intros H. unfold round_ne. rewrite !Qred_correct.
  destruct (Qnum q1) as [|n1|n1] eqn:E1; destruct (Qnum q2) as [|n2|n2] eqn:E2.
  all: try (assert (P1 : 0 < q1) by (apply sign_pos; eauto)).
  all: try (assert (P2 : 0 < q2) by (apply sign_pos; eauto)).
  all: try (assert (N1 : 0 < - q1) by (apply sign_pos; destruct q1; simpl in *; subst; simpl; eauto)).
  all: try (assert (N2 : 0 < - q2) by (apply sign_pos; destruct q2; simpl in *; subst; simpl; eauto)).
  all: try (assert (Z1 : q1 == 0) by (destruct q1; simpl in *; subst; reflexivity)).
  all: try (assert (Z2 : q2 == 0) by (destruct q2; simpl in *; subst; reflexivity)).
  all: try (pose proof (round_pos_positive q1 P1)).
  all: try (pose proof (round_pos_positive q2 P2)).
  all: try (pose proof (round_pos_positive (- q1) N1)).
  all: try (pose proof (round_pos_positive (- q2) N2)).
  all: try lra.
  - now apply round_pos_monotone.
  - assert (round_pos p (- q2) <= round_pos p (- q1)) by (apply round_pos_monotone; lra).
    lra.
Qed.
End RoundPos.
Lemma rne_comp (s t : Q) : s == t -> rne s = rne t.
Proof.
  intros E. unfold rne. rewrite (Qfloor_comp _ _ E).
  assert (E' : s - inject_Z (Qfloor t) == t - inject_Z (Qfloor t)) by (rewrite E; reflexivity).
  rewrite (Qcompare_comp _ _ E' _ _ (Qeq_refl (1 # 2))). reflexivity.
Qed.

Lemma rne_error (s : Q) : s - (1 # 2) <= inject_Z (rne s) <= s + (1 # 2).
Proof.
  pose proof (Qfloor_le s) as L. pose proof (Qlt_floor s) as U.
  rewrite inject_Z_plus in U. change (inject_Z 1) with 1 in U.
  unfold rne.
  destruct (Qcompare_spec (s - inject_Z (Qfloor s)) (1 # 2)) as [A | A | A];
    [destruct (Z.even (Qfloor s)) | |];
    rewrite ?inject_Z_plus; change (inject_Z 1) with 1; lra.
Qed.

Lemma round_pos_error (p : Z) (q : Q) :
  0 < q -> q - q * 2 ^ (- p) <= round_pos p q <= q + q * 2 ^ (- p).
Proof.
  intros Hq. destruct (mag_spec q Hq) as [L _].
  unfold round_pos. set (c := (mag q - p + 1)%Z).
  pose proof (pow2_pos c) as Hc.
  pose proof (rne_error (q * 2 ^ (- c))) as [E1 E2].
  pose proof (scale_back q c) as Hs.
  assert (Hh : (1 # 2) * 2 ^ c <= q * 2 ^ (- p)).
  { assert (E : (1 # 2) * 2 ^ c == 2 ^ mag q * 2 ^ (- p)).
    { rewrite <- pow2_add. replace (mag q + - p)%Z with (c - 1)%Z by lia.
      pose proof (pow2_succ (c - 1)) as S.
      replace (c - 1 + 1)%Z with c in S by lia. rewrite S. ring. }
    rewrite E. apply Qmult_le_r; [apply pow2_pos | exact L]. }
  set (r := inject_Z (rne (q * 2 ^ (- c)))) in *.
  set (s := q * 2 ^ (- c)) in *.
  assert (M1 : (s - (1 # 2)) * 2 ^ c <= r * 2 ^ c) by (apply Qmult_le_r; [exact Hc | exact E1]).
  assert (M2 : r * 2 ^ c <= (s + (1 # 2)) * 2 ^ c) by (apply Qmult_le_r; [exact Hc | exact E2]).
  split; lra.
Qed.

Lemma round_ne_error (p : Z) (q : Q) :
  Qabs (round_ne p q - q) <= Qabs q * 2 ^ (- p).
Proof.
  unfold round_ne. rewrite Qred_correct.
  destruct (Qnum q) as [| n | n] eqn:E.
  - assert (Z0 : q == 0) by (destruct q; simpl in *; subst; reflexivity).
    rewrite Z0. vm_compute. discriminate.
  - assert (P : 0 < q) by (destruct q; simpl in *; subst; reflexivity).
    destruct (round_pos_error p q P) as [A B]. pose proof (pow2_pos (- p)).
    rewrite (Qabs_pos q) by lra. apply Qabs_Qle_condition. split; lra.
  - assert (P : 0 < - q) by (destruct q; simpl in *; subst; reflexivity).
    destruct (round_pos_error p (- q) P) as [A B]. pose proof (pow2_pos (- p)).
    rewrite (Qabs_neg q) by lra. apply Qabs_Qle_condition. split; lra.
Qed.

(** Integers of at most [p] bits are representable. *)
Lemma round_pos_integer (p n : Z) :
  (0 < n < 2 ^ p)%Z -> round_pos p (inject_Z n) == inject_Z n.
Proof.
  intros [Hn Hp].
  assert (Hp0 : (0 <= p)%Z).
  { destruct (Z.ltb_spec p 0) as [C |]; [| assumption]. rewrite Z.pow_neg_r in Hp by lia. lia. }
  assert (Hq : 0 < inject_Z n) by (change 0 with (inject_Z 0); rewrite <- Zlt_Qlt; lia).
  destruct (mag_spec _ Hq) as [L _].
  assert (Hm : (mag (inject_Z n) < p)%Z).
  { rewrite Zlt_Qlt in Hp. rewrite pow2_inject in Hp by lia.
    assert (H : 2 ^ mag (inject_Z n) < 2 ^ p) by lra.
    apply Qpower_lt_compat_l_inv in H; [lia | reflexivity]. }
  unfold round_pos. set (c := (mag (inject_Z n) - p + 1)%Z).
  assert (E : inject_Z n * 2 ^ (- c) == inject_Z (n * 2 ^ (- c))).
  { rewrite inject_Z_mult, pow2_inject by lia. reflexivity. }
  rewrite (rne_comp _ _ E), rne_Z, <- E. apply scale_back.
Qed.

Lemma round_ne_integer (p n : Z) :
  (Z.abs n < 2 ^ p)%Z -> round_ne p (inject_Z n) == inject_Z n.
Proof.
  intros H. unfold round_ne. rewrite Qred_correct.
  destruct n as [| n | n]; cbn [Qnum inject_Z].
  - reflexivity.
  - apply (round_pos_integer p (Zpos n)). lia.
  - change (- (Zneg n # 1)) with (inject_Z (Zpos n)).
    rewrite (round_pos_integer p (Zpos n)) by lia. reflexivity.
Qed.

Lemma float_div_1000_accuracy (n : Z) :
  (Z.abs n < 2 ^ 24)%Z ->
  Qabs (float_div_1000 n - inject_Z n / 1000) <= Qabs (inject_Z n / 1000) * 2 ^ (- 24).
Proof.
  intros H. unfold float_div_1000.
  pose proof (round_ne_integer 24 n H) as E.
  pose proof (round_ne_error 24 (round_ne 24 (inject_Z n) / 1000)) as B.
  set (r := round_ne 24 (round_ne 24 (inject_Z n) / 1000)) in *.
  assert (E' : round_ne 24 (inject_Z n) / 1000 == inject_Z n / 1000) by (rewrite E; reflexivity).
  rewrite E' in B. exact B.
Qed.

Lemma trunc_monotone (a b : Q) : a <= b -> (trunc a <= trunc b)%Z.
Proof.
  intros H. unfold trunc.
  destruct (Qle_bool 0 a) eqn:Ea; destruct (Qle_bool 0 b) eqn:Eb.
  - now apply Qfloor_resp_le.
  - apply Qle_bool_iff in Ea.
    assert (~ 0 <= b) by (intros C; apply Qle_bool_iff in C; congruence). lra.
  - apply Qle_bool_iff in Eb.
    assert (Ha : ~ 0 <= a) by (intros C; apply Qle_bool_iff in C; congruence).
    assert (Hc : (Qceiling a <= 0)%Z).
    { change 0%Z with (Qceiling 0). apply Qceiling_resp_le. lra. }
    assert (Hf : (0 <= Qfloor b)%Z).
    { change 0%Z with (Qfloor 0). now apply Qfloor_resp_le. }
    lia.
  - now apply Qceiling_resp_le.
Qed.

Lemma trunc_nonneg (q : Q) : 0 <= q -> trunc q = Qfloor q.
Proof. intros H. unfold trunc. apply Qle_bool_iff in H. now rewrite H. Qed.

Lemma trunc_Z (z : Z) : trunc (inject_Z z) = z.
Proof. unfold trunc. rewrite Qfloor_Z, Qceiling_Z. now destruct (Qle_bool 0 (inject_Z z)). Qed.

Lemma half_exact_upto (k : nat) :
  forallb half_exact (map Z.of_nat (seq 0 k)) = true ->
  forall n, (0 <= n < Z.of_nat k)%Z -> to_int (add_half n) = Some n.
Proof.
  intros H n Hn. rewrite forallb_forall in H.
  specialize (H n). unfold half_exact in H.
  destruct (to_int (add_half n)) as [m |].
  - assert (E : (m =? n)%Z = true).
    { apply H. apply in_map_iff. exists (Z.to_nat n). split; [lia |]. apply in_seq. lia. }
    apply Z.eqb_eq in E. now subst.
  - assert (E : false = true); [| discriminate].
    apply H. apply in_map_iff. exists (Z.to_nat n). split; [lia |]. apply in_seq. lia.
Qed.

Lemma add_half_truncates (n : Z) : (0 <= n <= 100)%Z -> to_int (add_half n) = Some n.
Proof.
  intros H. apply (half_exact_upto 101); [vm_compute; reflexivity | lia].
Qed.

End FloatFacts.

(** ** The sampler, case by case *)

Module SamplerFacts.
Import Float Libc Utils Drawtypes Battery.
Local Open Scope string_scope.

Ltac fields :=
  cbn [this files trace battery adapter full_at state percentage
       animation_charging label_charging label_discharging label_full
       label_charging_tokenized label_discharging_tokenized
       label_full_tokenized] in *.

Ltac run_sampler :=
  unfold on_event, bind, member, get_contents, log_trace, log_error, emit, ret,
    deref_member, store_state, store_percentage, update, when;
  cbn [this files trace].

Section Sampler.
Variable paths : Paths.

Lemma on_event_status_empty (event : option InotifyEvent) (w : World) :
  empty (status_content paths w) = true ->
  on_event paths event w =
  Done false (logged event w ("Failed to read " ++ status_path paths (this w))).
Proof.
  unfold status_content, status_path. intros H. run_sampler.
  destruct event as [e |]; cbn [this files trace]; rewrite H;
    unfold logged, hint; cbn [this files trace]; rewrite <- ?app_assoc; reflexivity.
Qed.

Lemma on_event_capacity_empty (event : option InotifyEvent) (w : World) :
  empty (status_content paths w) = false ->
  empty (capacity_content paths w) = true ->
  on_event paths event w =
  Done false (logged event w ("Failed to read " ++ capacity_path paths (this w))).
Proof.
  unfold status_content, capacity_content, status_path, capacity_path.
  intros Hs Hc. run_sampler.
  destruct event as [e |]; cbn [this files trace]; rewrite Hs; cbn [this files trace]; rewrite Hc;
    unfold logged, hint; cbn [this files trace]; rewrite <- ?app_assoc; reflexivity.
Qed.

Lemma on_event_undefined (event : option InotifyEvent) (w : World) :
  empty (status_content paths w) = false ->
  empty (capacity_content paths w) = false ->
  read_percentage (capacity_content paths w) = None ->
  on_event paths event w = Crash UndefinedConversion.
Proof.
  unfold status_content, capacity_content, status_path, capacity_path.
  intros Hs Hc Hp. run_sampler.
  destruct event as [e |]; cbn [this files trace]; rewrite Hs; cbn [this files trace]; rewrite Hc;
    cbn [this files trace]; rewrite Hp; reflexivity.
Qed.

Lemma on_event_null (event : option InotifyEvent) (w : World) (p : Z) :
  empty (status_content paths w) = false ->
  empty (capacity_content paths w) = false ->
  read_percentage (capacity_content paths w) = Some p ->
  label_charging (this w) = None \/ label_discharging (this w) = None \/
  label_full (this w) = None ->
  on_event paths event w = Crash NullDereference.
Proof.
  unfold status_content, capacity_content, status_path, capacity_path.
  intros Hs Hc Hp Hnull. run_sampler.
  destruct w as [m fs tr]. cbn [this files trace] in *.
  destruct m as [b a f s pc an lc ld lf tc td tf]. fields.
  destruct event as [e |]; fields; rewrite Hs; fields; rewrite Hc; fields; rewrite Hp;
    cbn -[string_replace to_string];
    destruct tc, td, tf, lc, ld, lf; try reflexivity;
    destruct Hnull as [H | [H | H]]; discriminate H.
Qed.

Lemma on_event_success (event : option InotifyEvent) (w : World) (p : Z)
    (lc ld lf : Label) :
  empty (status_content paths w) = false ->
  empty (capacity_content paths w) = false ->
  read_percentage (capacity_content paths w) = Some p ->
  label_charging (this w) = Some lc ->
  label_discharging (this w) = Some ld ->
  label_full (this w) = Some lf ->
  on_event paths event w =
  Done true (published event w (sampled (this w) (status_content paths w) p lc ld lf)).
Proof.
  unfold status_content, capacity_content, status_path, capacity_path.
  intros Hs Hc Hp Hlc Hld Hlf. run_sampler.
  destruct w as [m fs tr]. cbn [this files trace] in *.
  destruct m as [b a f s pc an lc' ld' lf' tc td tf]. fields.
  subst lc' ld' lf'.
  unfold published, sampled, normalize, tokenize, hint.
  destruct event as [e |]; fields; rewrite Hs; fields; rewrite Hc; fields; rewrite Hp;
    cbn -[string_replace to_string];
    destruct tc, td, tf; cbn -[string_replace to_string]; rewrite <- ?app_assoc; reflexivity.
Qed.

End Sampler.
End SamplerFacts.

(** ** The percentage read *)

Module PercentageFacts.
Import Float FloatFacts Libc Utils Drawtypes Battery.
Local Open Scope Q_scope.

Lemma Qle_bool_false (a b : Q) : Qle_bool a b = false -> b < a.
Proof.
  intros H. apply Qnot_le_lt. intros C. apply Qle_bool_iff in C. congruence.
Qed.


Lemma cap_finite (x : fp) :
  x <> NaN -> exists q, cap x 0 100 = Fin q /\ 0 <= q <= 100.
Proof.
  intros H. destruct x as [a | [|] |]; simpl.
  - destruct (Qle_bool a 0) eqn:E0.
    + exists 0. split; [reflexivity | lra].
    + apply Qle_bool_false in E0. destruct (Qle_bool 100 a) eqn:E1.
      * exists 100. split; [reflexivity | lra].
      * apply Qle_bool_false in E1. exists a. split; [reflexivity | lra].
  - exists 0. split; [reflexivity | lra].
  - exists 100. split; [reflexivity | lra].
  - congruence.
Qed.


Lemma read_percentage_floor (capacity : string) :
  read_percentage capacity =
  match cap (to_float (atof capacity)) 0 100 with
  | Fin q => Some (Qfloor q)
  | _ => Some (-2147483647)%Z
  end.
Proof.
  unfold read_percentage.
  destruct (to_float (atof capacity)) as [a | [|] |] eqn:E.
  - destruct (cap_finite (Fin a)) as [q [Eq Rq]]; [discriminate |].
    rewrite Eq. unfold to_int. rewrite trunc_nonneg by lra.
    assert (H0 : (0 <= Qfloor q)%Z) by (change 0%Z with (Qfloor 0); apply Qfloor_resp_le; lra).
    assert (H1 : (Qfloor q <= 100)%Z) by (change 100%Z with (Qfloor 100); apply Qfloor_resp_le; lra).
    assert (R : ((INT_MIN <=? Qfloor q) && (Qfloor q <=? INT_MAX))%Z = true).
    { unfold INT_MIN, INT_MAX. apply andb_true_iff. split; apply Z.leb_le; lia. }
    rewrite R. apply add_half_truncates. lia.
  - vm_compute. reflexivity.
  - vm_compute. reflexivity.
  - vm_compute. reflexivity.
Qed.

Lemma to_float_nan (x : fp) : to_float x = NaN <-> x = NaN.
Proof. destruct x as [a | [|] |]; simpl; split; congruence. Qed.


Lemma read_percentage_defined (capacity : string) :
  atof capacity <> NaN -> exists p, read_percentage capacity = Some p.
Proof.
  intros H. rewrite read_percentage_floor.
  destruct (cap_finite (to_float (atof capacity))) as [q [Eq _]].
  - destruct (atof capacity) as [a | [|] |]; simpl; congruence.
  - rewrite Eq. eauto.
Qed.

(** A capacity that [atof] reads as NaN: the clamp lets it through, the
    cast gives [INT_MIN], and adding 0.5 and converting again leaves
    [INT_MIN + 1]. *)
Lemma read_percentage_nan (capacity : string) :
  atof capacity = NaN -> read_percentage capacity = Some (-2147483647)%Z.
Proof. intros H. rewrite read_percentage_floor, H. reflexivity. Qed.

Lemma read_percentage_range (capacity : string) (p : Z) :
  atof capacity <> NaN ->
  read_percentage capacity = Some p -> (0 <= p <= 100)%Z.
Proof.
  rewrite read_percentage_floor. intros HN H.
  destruct (cap_finite (to_float (atof capacity))) as [q [Eq Rq]].
  { intros C. exact (HN (proj1 (to_float_nan _) C)). }
  rewrite Eq in H. injection H as <-.
  split; [change 0%Z with (Qfloor 0) | change 100%Z with (Qfloor 100)];
    apply Qfloor_resp_le; lra.
Qed.

Lemma read_percentage_values (capacity : string) (p : Z) :
  read_percentage capacity = Some p ->
  (0 <= p <= 100)%Z \/ (atof capacity = NaN /\ p = (-2147483647)%Z).
Proof.
  intros H. destruct (atof capacity) as [a | [|] |] eqn:E.
  - left. apply (read_percentage_range capacity); [rewrite E; discriminate | exact H].
  - left. apply (read_percentage_range capacity); [rewrite E; discriminate | exact H].
  - left. apply (read_percentage_range capacity); [rewrite E; discriminate | exact H].
  - right. split; [reflexivity |].
    rewrite (read_percentage_nan capacity E) in H. now injection H as <-.
Qed.

Lemma read_percentage_upper (capacity : string) (p : Z) :
  read_percentage capacity = Some p -> (p <= 100)%Z.
Proof.
  intros H. destruct (read_percentage_values capacity p H) as [R | [_ ->]]; lia.
Qed.




Lemma normalize_full (raw : ChargeState) (t p : Z) :
  snd (normalize raw t p) = 100%Z -> fst (normalize raw t p) = STATE_FULL.
Proof.
  unfold normalize. cbn [fst snd]. intros ->. reflexivity.
Qed.

End PercentageFacts.

(** ** Traces of the animation thread *)

Module AnimationFacts.
Import Float FloatFacts Libc Utils Drawtypes Battery.

Lemma justified_nil : justified [].
Proof. intros [| e pre] post H; discriminate H. Qed.

Lemma justified_cons (e : Event) (tr : list Event) :
  e <> Broadcast -> justified tr -> justified (e :: tr).
Proof.
  intros He Htr [| e' pre] post H; simpl in H.
  - injection H as H _. contradiction.
  - injection H as <- H. destruct (Htr pre post H) as [pre' ->].
    exists (e :: pre'). reflexivity.
Qed.

Lemma justified_charging (d : Q) (tr : list Event) :
  justified tr ->
  justified (Lock :: LoadState STATE_CHARGING :: Unlock :: Broadcast :: SleepSeconds d :: tr).
Proof.
  intros Htr pre post H.
  destruct pre as [| e1 [| e2 [| e3 [| e4 pre]]]]; simpl in H; try discriminate H.
  - injection H as <- <- <- _. exists []. reflexivity.
  - injection H as <- <- <- <- H.
    assert (J : justified (SleepSeconds d :: tr)) by (apply justified_cons; [discriminate | exact Htr]).
    destruct (J pre post H) as [pre' ->].
    exists (Lock :: LoadState STATE_CHARGING :: Unlock :: Broadcast :: pre'). reflexivity.
Qed.

Lemma inner_loop_justified (dur : Q) (obs : list Observation) :
  forall retries tail, justified tail ->
  justified (snd (inner_loop dur retries obs) ++ tail).
Proof.
  induction obs as [| o obs IH]; intros retries tail Htail; simpl.
  - exact Htail.
  - destruct o as [| st].
    + exact Htail.
    + specialize (IH (if (0 <? retries)%Z then 0%Z else retries) tail Htail).
      destruct (inner_loop dur (if (0 <? retries)%Z then 0%Z else retries) obs) as [[r o] t].
      cbn [snd] in *.
      destruct st; cbn [state_eqb app];
        try (apply justified_charging; exact IH);
        repeat (apply justified_cons; [discriminate |]); exact IH.
Qed.

Lemma outer_loop_justified (dur : Q) (fuel : nat) :
  forall retries obs, justified (events (outer_loop fuel dur retries obs)).
Proof.
  induction fuel as [| fuel IH]; intros retries obs; simpl.
  - destruct (0 <? retries)%Z; apply justified_nil.
  - destruct (0 <? retries)%Z; [| apply justified_nil].
    pose proof (inner_loop_justified dur obs (retries - 1)) as Hin.
    destruct (inner_loop dur (retries - 1) obs) as [[r o] t]. cbn [snd] in Hin.
    destruct o as [rest |]; cbn [events].
    + apply Hin. apply justified_cons; [discriminate | apply IH].
    + rewrite <- (app_nil_r t). apply Hin, justified_nil.
Qed.

(** Loads of [state] under the lock. *)
Lemma inner_loop_guarded (dur : Q) (obs : list Observation) :
  forall retries tail,
  guarded is_load false (snd (inner_loop dur retries obs) ++ tail) =
  guarded is_load false tail.
Proof.
  induction obs as [| o obs IH]; intros retries tail; simpl.
  - reflexivity.
  - destruct o as [| st].
    + reflexivity.
    + specialize (IH (if (0 <? retries)%Z then 0%Z else retries) tail).
      destruct (inner_loop dur (if (0 <? retries)%Z then 0%Z else retries) obs) as [[r o] t].
      cbn [snd] in *. destruct st; cbn; exact IH.
Qed.

Lemma outer_loop_guarded (dur : Q) (fuel : nat) :
  forall retries obs,
  guarded is_load false (events (outer_loop fuel dur retries obs)) = true.
Proof.
  induction fuel as [| fuel IH]; intros retries obs; simpl.
  - destruct (0 <? retries)%Z; reflexivity.
  - destruct (0 <? retries)%Z; [| reflexivity].
    pose proof (inner_loop_guarded dur obs (retries - 1)) as Hin.
    destruct (inner_loop dur (retries - 1) obs) as [[r o] t]. cbn [snd] in Hin.
    destruct o as [rest |]; cbn [events].
    + rewrite Hin. cbn. apply IH.
    + rewrite <- (app_nil_r t). rewrite Hin. reflexivity.
Qed.

(** The sleeps of the inner loop. *)
Lemma inner_loop_sleeps (dur : Q) (obs : list Observation) :
  forall retries d, In (SleepSeconds d) (snd (inner_loop dur retries obs)) -> d = dur.
Proof.
  induction obs as [| o obs IH]; intros retries d; simpl.
  - tauto.
  - destruct o as [| st].
    + simpl. tauto.
    + specialize (IH (if (0 <? retries)%Z then 0%Z else retries) d).
      destruct (inner_loop dur (if (0 <? retries)%Z then 0%Z else retries) obs) as [[r o] t].
      cbn [snd] in *. intros H.
      destruct st; cbn in H;
        repeat (destruct H as [H | H]; [try discriminate H; try (injection H as <-; reflexivity) |]);
        exact (IH H).
Qed.

Lemma outer_loop_sleeps (dur : Q) (fuel : nat) :
  forall retries obs d,
  In (SleepSeconds d) (events (outer_loop fuel dur retries obs)) -> d = dur.
Proof.
  induction fuel as [| fuel IH]; intros retries obs d; simpl.
  - destruct (0 <? retries)%Z; simpl; tauto.
  - destruct (0 <? retries)%Z; [| simpl; tauto].
    pose proof (inner_loop_sleeps dur obs (retries - 1) d) as Hin.
    destruct (inner_loop dur (retries - 1) obs) as [[r o] t]. cbn [snd] in Hin.
    destruct o as [rest |]; cbn [events]; intros H.
    + apply in_app_or in H. destruct H as [H | [H | H]].
      * exact (Hin H).
      * discriminate H.
      * exact (IH _ _ _ H).
    + exact (Hin H).
Qed.

(** The retry budget bounds the number of passes of the outer loop. *)
Lemma inner_loop_retries (dur : Q) (obs : list Observation) :
  forall retries, (fst (fst (inner_loop dur retries obs)) <= retries)%Z.
Proof.
  induction obs as [| o obs IH]; intros retries; simpl.
  - lia.
  - destruct o as [| st].
    + simpl. lia.
    + specialize (IH (if (0 <? retries)%Z then 0%Z else retries)).
      destruct (inner_loop dur (if (0 <? retries)%Z then 0%Z else retries) obs) as [[r o] t].
      cbn [fst] in *. destruct (Z.ltb_spec 0 retries); lia.
Qed.

Lemma outer_loop_fuel (dur : Q) (fuel : nat) :
  forall retries obs, (retries <= Z.of_nat fuel)%Z ->
  ending (outer_loop fuel dur retries obs) <> OutOfFuel.
Proof.
  induction fuel as [| fuel IH]; intros retries obs Hr; simpl.
  - destruct (Z.ltb_spec 0 retries); [lia | discriminate].
  - destruct (Z.ltb_spec 0 retries); [| discriminate].
    pose proof (inner_loop_retries dur obs (retries - 1)) as Hin.
    destruct (inner_loop dur (retries - 1) obs) as [[r o] t]. cbn [fst] in Hin.
    destruct o as [rest |]; cbn [ending]; [| discriminate].
    apply IH. lia.
Qed.

Lemma animation_thread_runner_total (animation : Animation) (obs : list Observation) :
  ending (animation_thread_runner animation obs) <> OutOfFuel.
Proof.
  unfold animation_thread_runner. cbn [ending]. apply outer_loop_fuel. simpl. lia.
Qed.

End AnimationFacts.

(** ** The sampler *)

Module SamplerSpec.

Import Float FloatFacts Libc Utils Drawtypes Battery Examples.
Import SamplerFacts PercentageFacts.
Local Open Scope string_scope.
Local Open Scope Z_scope.

Section Sampler.

Variable paths : Paths.

Lemma empty_dec (s : string) : empty s = true \/ empty s = false.
Proof. destruct (empty s); auto. Qed.

(** The five ways a sample can go. *)
Lemma on_event_cases (event : option InotifyEvent) (w : World) :
  (empty (status_content paths w) = true /\
   exists msg, on_event paths event w = Done false (logged event w msg)) \/
  (empty (status_content paths w) = false /\
   empty (capacity_content paths w) = true /\
   exists msg, on_event paths event w = Done false (logged event w msg)) \/
  on_event paths event w = Crash UndefinedConversion \/
  on_event paths event w = Crash NullDereference \/
  (exists p lc ld lf,
     empty (status_content paths w) = false /\
     empty (capacity_content paths w) = false /\
     read_percentage (capacity_content paths w) = Some p /\
     label_charging (this w) = Some lc /\
     label_discharging (this w) = Some ld /\
     label_full (this w) = Some lf /\
     on_event paths event w =
     Done true (published event w
                  (sampled (this w) (status_content paths w) p lc ld lf))).
Proof.
  destruct (empty_dec (status_content paths w)) as [Es | Es].
  { left. split; [exact Es |]. eexists. apply on_event_status_empty, Es. }
  destruct (empty_dec (capacity_content paths w)) as [Ec | Ec].
  { right; left. repeat split; try assumption.
    eexists. apply on_event_capacity_empty; assumption. }
  destruct (read_percentage (capacity_content paths w)) as [p |] eqn:Ep.
  2: { right; right; left. apply on_event_undefined; assumption. }
  destruct (label_charging (this w)) as [lc |] eqn:Elc.
  2: { do 3 right; left. apply (on_event_null paths event w p); auto. }
  destruct (label_discharging (this w)) as [ld |] eqn:Eld.
  2: { do 3 right; left. apply (on_event_null paths event w p); auto. }
  destruct (label_full (this w)) as [lf |] eqn:Elf.
  2: { do 3 right; left. apply (on_event_null paths event w p); auto. }
  do 4 right. exists p, lc, ld, lf. repeat split; try assumption.
  apply on_event_success; assumption.
Qed.

Lemma on_event_true_inv (event : option InotifyEvent) (w w' : World) :
  on_event paths event w = Done true w' ->
  exists p lc ld lf,
    empty (status_content paths w) = false /\
    empty (capacity_content paths w) = false /\
    read_percentage (capacity_content paths w) = Some p /\
    label_charging (this w) = Some lc /\
    label_discharging (this w) = Some ld /\
    label_full (this w) = Some lf /\
    w' = published event w (sampled (this w) (status_content paths w) p lc ld lf).
Proof.
  intros H.
  destruct (on_event_cases event w)
    as [[_ [msg E]] | [(_ & _ & [msg E]) | [E | [E | E]]]];
    try (rewrite E in H; discriminate H).
  destruct E as (p & lc & ld & lf & Es & Ec & Hp & Hc & Hd & Hf & E).
  rewrite E in H. injection H as <-.
  exists p, lc, ld, lf. repeat split; assumption.
Qed.

Lemma on_event_false_inv (event : option InotifyEvent) (w w' : World) :
  on_event paths event w = Done false w' ->
  (empty (status_content paths w) = true \/
   empty (capacity_content paths w) = true) /\
  exists msg, w' = logged event w msg.
Proof.
  intros H.
  destruct (on_event_cases event w)
    as [[Es [msg E]] | [(_ & Ec & [msg E]) | [E | [E | E]]]];
    try (rewrite E in H; discriminate H).
  - rewrite E in H. injection H as <-. eauto.
  - rewrite E in H. injection H as <-. eauto.
  - destruct E as (p & lc & ld & lf & _ & _ & _ & _ & _ & _ & E).
    rewrite E in H. discriminate H.
Qed.

Lemma sampled_state (m : BatteryModule) (status : string) (p : Z) (lc ld lf : Label) :
  state (sampled m status p lc ld lf) =
  fst (normalize (switch_status status STATE_UNKNOWN) (full_at m) p).
Proof. reflexivity. Qed.

Lemma sampled_percentage (m : BatteryModule) (status : string) (p : Z) (lc ld lf : Label) :
  percentage (sampled m status p lc ld lf) =
  snd (normalize (switch_status status STATE_UNKNOWN) (full_at m) p).
Proof. reflexivity. Qed.

Lemma sampled_again (m : BatteryModule) (status : string) (p : Z) (lc ld lf : Label) :
  sampled (sampled m status p lc ld lf) status p lc ld lf = sampled m status p lc ld lf.
Proof. reflexivity. Qed.

Lemma logged_contents (event : option InotifyEvent) (w : World) (msg : string) :
  status_content paths (logged event w msg) = status_content paths w /\
  capacity_content paths (logged event w msg) = capacity_content paths w.
Proof. split; reflexivity. Qed.

Lemma published_sampled_contents (e : option InotifyEvent) (w : World)
    (status : string) (p : Z) (lc ld lf : Label) :
  status_content paths (published e w (sampled (this w) status p lc ld lf)) =
  status_content paths w /\
  capacity_content paths (published e w (sampled (this w) status p lc ld lf)) =
  capacity_content paths w.
Proof. split; reflexivity. Qed.

Lemma get_format_cases (m : BatteryModule) :
  get_format m =
  match state m with
  | STATE_FULL => FORMAT_FULL
  | STATE_CHARGING => FORMAT_CHARGING
  | STATE_UNKNOWN | STATE_DISCHARGING => FORMAT_DISCHARGING
  end.
Proof. unfold get_format. destruct (state m); reflexivity. Qed.

Lemma switch_status_other (c : ascii) (rest : string) (s : ChargeState) :
  c <> "0"%char -> c <> "1"%char -> switch_status (String c rest) s = s.
Proof.
  intros H0 H1. unfold switch_status.
  destruct c as [[|] [|] [|] [|] [|] [|] [|] [|]]; try reflexivity; contradiction.
Qed.

(** C2. After a successful sample that read the percentage [p]: the
    percentage published is 100 when the raw state is CHARGING and [p] is at
    least [full_at], and [p] otherwise; the state published is FULL when that
    percentage is 100, and the raw state otherwise.  So a charging battery
    at or above the threshold is published as 100 and FULL, and a published
    percentage of 100 always comes with FULL, whatever the status byte. *)
Theorem on_event_normalization (event : option InotifyEvent) (w w' : World) (p : Z) :
  on_event paths event w = Done true w' ->
  read_percentage (capacity_content paths w) = Some p ->
  let raw := switch_status (status_content paths w) STATE_UNKNOWN in
  let forced :=
    if state_eqb raw STATE_CHARGING && (full_at (this w) <=? p) then 100 else p in
  (percentage (this w') = forced /\
   state (this w') = if forced =? 100 then STATE_FULL else raw) /\
  (raw = STATE_CHARGING -> full_at (this w) <= p ->
   percentage (this w') = 100 /\ state (this w') = STATE_FULL) /\
  (percentage (this w') = 100 -> state (this w') = STATE_FULL).
Proof.
  intros H Hp raw forced.
  destruct (on_event_true_inv event w w' H)
    as (p0 & lc & ld & lf & _ & _ & Hp0 & _ & _ & _ & ->).
  rewrite Hp in Hp0. injection Hp0 as <-.
  unfold published. cbn [this].
  rewrite sampled_state, sampled_percentage. unfold normalize. cbn [fst snd].
  fold raw. fold forced.
  split; [split; reflexivity |]. split.
  - intros Hraw Hfull. unfold forced. rewrite Hraw. cbn [state_eqb andb].
    apply Z.leb_le in Hfull. rewrite Hfull. cbn. split; reflexivity.
  - intros ->. reflexivity.
Qed.

(** C3. When the status file or the capacity file is empty, the sample
    returns false, the module (snapshot, labels and all) is what it was, and
    the only events added are the optional hint line and one error line. *)
Theorem on_event_failure_atomic (event : option InotifyEvent) (w : World) :
  status_content paths w = "" \/ capacity_content paths w = "" ->
  exists w' msg,
    on_event paths event w = Done false w' /\
    this w' = this w /\
    trace w' = (trace w ++ hint event ++ [LogError msg])%list.
Proof.
  intros H.
  destruct (empty_dec (status_content paths w)) as [Es | Es].
  - eexists; eexists. split; [apply on_event_status_empty; exact Es |].
    split; reflexivity.
  - destruct H as [H | H]; [rewrite H in Es; discriminate Es |].
    assert (Ec : empty (capacity_content paths w) = true) by (rewrite H; reflexivity).
    eexists; eexists. split; [apply on_event_capacity_empty; assumption |].
    split; reflexivity.
Qed.


(** C8. A sample that returned is repeated by the next one on the same
    files: it returns the same value and leaves the same snapshot and the
    same three tokenized labels. *)
Theorem on_event_idempotent (e1 e2 : option InotifyEvent) (w w1 : World) (b : bool) :
  on_event paths e1 w = Done b w1 ->
  exists w2,
    on_event paths e2 w1 = Done b w2 /\
    snapshot (this w2) = snapshot (this w1) /\
    tokenized_labels (this w2) = tokenized_labels (this w1).
Proof.
  intros H. destruct b.
  - destruct (on_event_true_inv e1 w w1 H)
      as (p & lc & ld & lf & Es & Ec & Hp & Hlc & Hld & Hlf & ->).
    set (m1 := sampled (this w) (status_content paths w) p lc ld lf).
    destruct (published_sampled_contents e1 w (status_content paths w) p lc ld lf)
      as [Cs Cc].
    fold m1 in Cs, Cc.
    exists (published e2 (published e1 w m1) m1). split.
    + rewrite (on_event_success paths e2 (published e1 w m1) p lc ld lf).
      * rewrite Cs. cbn [this published]. unfold m1. rewrite sampled_again. reflexivity.
      * rewrite Cs. exact Es.
      * rewrite Cc. exact Ec.
      * rewrite Cc. exact Hp.
      * exact Hlc.
      * exact Hld.
      * exact Hlf.
    + split; reflexivity.
  - destruct (on_event_false_inv e1 w w1 H) as [Hempty [msg ->]].
    destruct (logged_contents e1 w msg) as [Cs Cc].
    destruct (empty_dec (status_content paths w)) as [Es | Es].
    + eexists. split; [apply on_event_status_empty; rewrite Cs; exact Es |].
      split; reflexivity.
    + destruct Hempty as [Es' | Ec]; [congruence |].
      eexists.
      split; [apply on_event_capacity_empty; [rewrite Cs | rewrite Cc]; assumption |].
      split; reflexivity.
Qed.

(** C9, as amended.  [get_format] is a total function of the state: FULL
    gives the full format, CHARGING the charging format, UNKNOWN and
    DISCHARGING the discharging format.  After a successful sample whose
    status starts with a byte other than '0' and '1' and whose percentage is
    not 100, the state is UNKNOWN and the format is the discharging one. *)
Theorem get_format_total (m : BatteryModule) (event : option InotifyEvent)
    (w w' : World) (c : ascii) (rest : string) :
  get_format m =
    match state m with
    | STATE_FULL => FORMAT_FULL
    | STATE_CHARGING => FORMAT_CHARGING
    | STATE_UNKNOWN | STATE_DISCHARGING => FORMAT_DISCHARGING
    end /\
  (on_event paths event w = Done true w' ->
   status_content paths w = String c rest ->
   c <> "0"%char -> c <> "1"%char ->
   percentage (this w') <> 100 ->
   state (this w') = STATE_UNKNOWN /\ get_format (this w') = FORMAT_DISCHARGING).
Proof.
  split; [apply get_format_cases |].
  intros H Hs H0 H1 Hp.
  destruct (on_event_true_inv event w w' H)
    as (p & lc & ld & lf & _ & _ & _ & _ & _ & _ & ->).
  revert Hp. rewrite get_format_cases. unfold published. cbn [this].
  rewrite sampled_state, sampled_percentage, Hs, (switch_status_other c rest _ H0 H1).
  unfold normalize. cbn [fst snd state_eqb andb].
  intros Hp. destruct (Z.eqb_spec p 100); [contradiction | split; reflexivity].
Qed.

(** C10. When both files are read non-empty and the percentage is defined,
    the sample succeeds exactly when the three label templates are all
    non-null, whatever the snapshot and the tokenized labels are; with one
    of them null it dereferences a null pointer.  The constructor leaves a
    template null as soon as its tag is missing from its format. *)
Theorem on_event_needs_all_templates (event : option InotifyEvent) (w : World) (p : Z) :
  empty (status_content paths w) = false ->
  empty (capacity_content paths w) = false ->
  read_percentage (capacity_content paths w) = Some p ->
  ((exists w', on_event paths event w = Done true w') <->
   (exists lc ld lf,
      label_charging (this w) = Some lc /\
      label_discharging (this w) = Some ld /\
      label_full (this w) = Some lf)) /\
  (label_charging (this w) = None \/ label_discharging (this w) = None \/
   label_full (this w) = None ->
   on_event paths event w = Crash NullDereference) /\
  (forall cfg,
     (formatter_has cfg TAG_LABEL_CHARGING FORMAT_CHARGING = false ->
      label_charging (construct cfg) = None) /\
     (formatter_has cfg TAG_LABEL_DISCHARGING FORMAT_DISCHARGING = false ->
      label_discharging (construct cfg) = None) /\
     (formatter_has cfg TAG_LABEL_FULL FORMAT_FULL = false ->
      label_full (construct cfg) = None)).
Proof.
  intros Es Ec Hp. split; [split | split].
  - intros [w' H].
    destruct (on_event_true_inv event w w' H)
      as (_ & lc & ld & lf & _ & _ & _ & Hc & Hd & Hf & _).
    exists lc, ld, lf. auto.
  - intros (lc & ld & lf & Hc & Hd & Hf).
    eexists. exact (on_event_success paths event w p lc ld lf Es Ec Hp Hc Hd Hf).
  - intros H. exact (on_event_null paths event w p Es Ec Hp H).
  - intros cfg. unfold construct. cbn. repeat split; intros ->; reflexivity.
Qed.

End Sampler.

(** C1.  The capacity "99.6" on a discharging adapter: the sample publishes
    99, the clamped value truncated, where rounding half up gives 100. *)
Theorem sampler_truncates_capacity :
  exists w',
    on_event sysfs_paths None discharging_99_6 = Done true w' /\
    snapshot (this w') = (STATE_DISCHARGING, 99) /\
    read_percentage "99.6" = Some 99 /\
    spec_percentage "99.6" = Some 100.
Proof.
  eexists. split; [vm_compute; reflexivity |].
  split; [reflexivity |]. split; vm_compute; reflexivity.
Qed.

Lemma on_event_normalization_witness :
  (percentage (this (sample charging_99_6_full_at_95)) = 100 /\
   state (this (sample charging_99_6_full_at_95)) = STATE_FULL) /\
  (STATE_CHARGING = STATE_CHARGING -> 95 <= 99 ->
   percentage (this (sample charging_99_6_full_at_95)) = 100 /\
   state (this (sample charging_99_6_full_at_95)) = STATE_FULL) /\
  (percentage (this (sample charging_99_6_full_at_95)) = 100 ->
   state (this (sample charging_99_6_full_at_95)) = STATE_FULL).
Proof.
  apply (on_event_normalization sysfs_paths None charging_99_6_full_at_95
           (sample charging_99_6_full_at_95) 99);
    vm_compute; reflexivity.
Defined.

Lemma on_event_failure_atomic_witness :
  exists w' msg,
    on_event sysfs_paths None status_unreadable = Done false w' /\
    this w' = this status_unreadable /\
    trace w' = [LogError msg].
Proof.
  apply (on_event_failure_atomic sysfs_paths None status_unreadable).
  left. reflexivity.
Defined.



Lemma on_event_idempotent_witness :
  exists w2,
    on_event sysfs_paths None (sample charging_87) = Done true w2 /\
    snapshot (this w2) = snapshot (this (sample charging_87)) /\
    tokenized_labels (this w2) = tokenized_labels (this (sample charging_87)).
Proof.
  apply (on_event_idempotent sysfs_paths None None charging_87).
  vm_compute. reflexivity.
Defined.

Lemma get_format_total_witness :
  state (this (sample unknown_87)) = STATE_UNKNOWN /\
  get_format (this (sample unknown_87)) = FORMAT_DISCHARGING.
Proof.
  refine (proj2 (get_format_total sysfs_paths (this (sample unknown_87)) None
                   unknown_87 (sample unknown_87) "2"%char "") _ _ _ _ _).
  - vm_compute. reflexivity.
  - vm_compute. reflexivity.
  - discriminate.
  - discriminate.
  - vm_compute. discriminate.
Defined.

(** The status "2" with the capacity "100": the state is FULL, not UNKNOWN,
    and the format is the full one. *)
Lemma unknown_status_at_100_is_full :
  exists w',
    on_event sysfs_paths None unknown_100 = Done true w' /\
    state (this w') = STATE_FULL /\ state (this w') <> STATE_UNKNOWN /\
    get_format (this w') = FORMAT_FULL /\ get_format (this w') <> FORMAT_DISCHARGING.
Proof.
  eexists. split; [vm_compute; reflexivity |].
  repeat split; try reflexivity; discriminate.
Qed.

Lemma on_event_needs_all_templates_witness :
  on_event sysfs_paths None charging_87_no_full_label = Crash NullDereference.
Proof.
  apply (on_event_needs_all_templates sysfs_paths None charging_87_no_full_label 87);
    try (vm_compute; reflexivity).
  right. right. reflexivity.
Defined.

End SamplerSpec.

(** ** The animation thread and the lock *)

Module AnimationSpec.

Import Float FloatFacts Libc Utils Drawtypes Battery Examples.
Import SamplerFacts AnimationFacts.
Local Open Scope string_scope.
Local Open Scope Z_scope.

(** C4. In every run of the animation thread, a broadcast directly follows
    a read of [state] that was made with the lock held and found CHARGING:
    none is issued after the thread has read UNKNOWN, DISCHARGING or FULL. *)
Theorem broadcast_only_when_charging (animation : Animation)
    (obs : list Observation) (pre post : list Event) :
  events (animation_thread_runner animation obs) = (pre ++ Broadcast :: post)%list ->
  exists pre', pre = (pre' ++ [Lock; LoadState STATE_CHARGING; Unlock])%list.
Proof.
  revert pre post.
  change (justified (events (animation_thread_runner animation obs))).
  unfold animation_thread_runner. cbn [events].
  apply justified_cons; [discriminate | apply outer_loop_justified].
Qed.

Lemma broadcast_only_when_charging_witness :
  exists pre',
    [Yield; Lock; LoadState STATE_CHARGING; Unlock] =
    (pre' ++ [Lock; LoadState STATE_CHARGING; Unlock])%list.
Proof.
  apply (broadcast_only_when_charging every_750_ms
           [Enabled STATE_CHARGING; Disabled]
           [Yield; Lock; LoadState STATE_CHARGING; Unlock]
           [SleepSeconds (3 # 4); SleepMilliseconds 500]).
  vm_compute. reflexivity.
Defined.

(** C5, as amended.  The animation thread reads [state] only while it holds
    [broadcast_lock].  A successful sample stores [state] and [percentage]
    and performs no operation on [broadcast_lock]. *)
Theorem gate_guards_the_coordinator_only (animation : Animation)
    (obs : list Observation) (paths : Paths) (event : option InotifyEvent)
    (w w' : World) :
  guarded is_load false (events (animation_thread_runner animation obs)) = true /\
  (on_event paths event w = Done true w' ->
   exists ext,
     trace w' = (trace w ++ ext)%list /\
     forallb (fun e => negb (is_lock_operation e)) ext = true /\
     In (StoreState (state (this w'))) ext /\
     In (StorePercentage (percentage (this w'))) ext).
Proof.
  split.
  - unfold animation_thread_runner. cbn [events guarded is_load andb].
    apply outer_loop_guarded.
  - intros H.
    destruct (SamplerSpec.on_event_true_inv paths event w w' H)
      as (p & lc & ld & lf & _ & _ & _ & _ & _ & _ & ->).
    eexists. split; [reflexivity |]. split.
    + destruct event; reflexivity.
    + split; apply in_or_app; right; simpl; auto.
Qed.

Lemma gate_guards_the_coordinator_only_witness :
  exists ext,
    trace (sample charging_87) = (trace charging_87 ++ ext)%list /\
    forallb (fun e => negb (is_lock_operation e)) ext = true /\
    In (StoreState (state (this (sample charging_87)))) ext /\
    In (StorePercentage (percentage (this (sample charging_87)))) ext.
Proof.
  apply (gate_guards_the_coordinator_only every_750_ms [] sysfs_paths None
           charging_87 (sample charging_87)).
  vm_compute. reflexivity.
Defined.

(** A sample stores the snapshot without taking the lock, and nothing keeps
    it out of the animation thread's critical section: in the schedule
    below, which respects the lock and the memory, the sampler publishes
    while the animation thread holds [broadcast_lock]. *)
Lemma sampler_stores_outside_gate :
  exists w' sched,
    on_event sysfs_paths None charging_87 = Done true w' /\
    trace w' = [StoreState STATE_CHARGING; StorePercentage 87] /\
    guarded is_store false (trace w') = false /\
    project Sampler sched = trace w' /\
    project Coordinator sched =
      events (animation_thread_runner every_750_ms [Enabled STATE_UNKNOWN]) /\
    respects_lock None sched = true /\
    coherent STATE_UNKNOWN sched = true /\
    stores_under_foreign_lock None sched = true.
Proof.
  eexists.
  exists [(Coordinator, Yield); (Coordinator, Lock);
          (Coordinator, LoadState STATE_UNKNOWN);
          (Coordinator, LogTrace "state != charging");
          (Sampler, StoreState STATE_CHARGING);
          (Sampler, StorePercentage 87);
          (Coordinator, SleepSeconds (3 # 4));
          (Coordinator, Unlock)].
  split; [vm_compute; reflexivity |].
  repeat split; vm_compute; reflexivity.
Qed.

(** C6, as amended.  Every sleep of the inner loop lasts the frame rate
    divided by 1000, in seconds, computed in single precision; for a frame
    rate below 2^24 in magnitude that is the exact quotient within a
    relative error of 2^-24. *)
Theorem frame_sleep_period (animation : Animation) (obs : list Observation) (d : Q) :
  In (SleepSeconds d) (events (animation_thread_runner animation obs)) ->
  d = float_div_1000 (get_framerate animation) /\
  (Z.abs (get_framerate animation) < 2 ^ 24 ->
   (Qabs (d - inject_Z (get_framerate animation) / 1000) <=
    Qabs (inject_Z (get_framerate animation) / 1000) * 2 ^ (- 24))%Q).
Proof.
  intros H. unfold animation_thread_runner in H. cbn [events] in H.
  destruct H as [H | H]; [discriminate H |].
  apply outer_loop_sleeps in H. subst d. split; [reflexivity |].
  apply float_div_1000_accuracy.
Qed.

Lemma frame_sleep_period_witness :
  (3 # 4)%Q = float_div_1000 750 /\
  (Z.abs 750 < 2 ^ 24 ->
   (Qabs ((3 # 4) - inject_Z 750 / 1000) <= Qabs (inject_Z 750 / 1000) * 2 ^ (- 24))%Q).
Proof.
  apply (frame_sleep_period every_750_ms [Enabled STATE_FULL] (3 # 4)%Q).
  vm_compute. tauto.
Defined.

(** A frame rate of 500: the loop sleeps half a second, not 1000/500 = 2
    seconds. *)
Lemma frame_sleep_is_not_inverse :
  In (SleepSeconds (1 # 2))
     (events (animation_thread_runner every_500_ms [Enabled STATE_CHARGING])) /\
  ~ (1 # 2 == 1000 / inject_Z 500)%Q.
Proof.
  split.
  - vm_compute. tauto.
  - vm_compute. discriminate.
Qed.

End AnimationSpec.

(** ** More on the sampler *)

Module SamplerExtras.

Import Float FloatFacts Libc Utils Drawtypes Battery Examples.
Import SamplerFacts PercentageFacts SamplerSpec Lifecycle Shapes Scenarios.
Local Open Scope string_scope.
Local Open Scope Z_scope.

Lemma upto_all (P : Z -> bool) (k : nat) :
  forallb P (map Z.of_nat (seq 0 k)) = true ->
  forall n, 0 <= n < Z.of_nat k -> P n = true.
Proof.
  intros H n Hn. rewrite forallb_forall in H. apply H.
  apply in_map_iff. exists (Z.to_nat n). split; [lia |]. apply in_seq. lia.
Qed.

Lemma to_float_zero : to_float (Fin 0) = Fin 0.
Proof. reflexivity. Qed.

Lemma round_24_hundred : (round_ne 24 100 == 100)%Q.
Proof. vm_compute. reflexivity. Qed.

Lemma round_24_zero : (round_ne 24 0 == 0)%Q.
Proof. vm_compute. reflexivity. Qed.

(** X1. Line 117 drops the fraction: when the capacity, as a [float], lies
    in [0,100], the percentage read is the integer part of that value; the
    0.5 that is added never rounds it up. *)
Theorem percentage_is_integer_part (capacity : string) (v : Q) :
  to_float (atof capacity) = Fin v ->
  (0 <= v <= 100)%Q ->
  exists p,
    read_percentage capacity = Some p /\
    (inject_Z p <= v < inject_Z p + 1)%Q.
Proof.
  intros Hv Hr. exists (Qfloor v). split.
  - rewrite read_percentage_floor, Hv. unfold cap.
    destruct (Qle_bool v 0) eqn:E0.
    + apply Qle_bool_iff in E0. assert (E : (v == 0)%Q) by lra.
      rewrite (Qfloor_comp _ _ E). reflexivity.
    + destruct (Qle_bool 100 v) eqn:E1; [| reflexivity].
      apply Qle_bool_iff in E1. assert (E : (v == 100)%Q) by lra.
      rewrite (Qfloor_comp _ _ E). reflexivity.
  - split; [apply Qfloor_le |].
    pose proof (Qlt_floor v) as U. rewrite inject_Z_plus in U. exact U.
Qed.

Lemma percentage_is_integer_part_witness :
  exists p,
    read_percentage "99.6" = Some p /\
    (inject_Z p <= 13054771 # 131072 < inject_Z p + 1)%Q.
Proof.
  apply (percentage_is_integer_part "99.6" (13054771 # 131072)).
  - vm_compute. reflexivity.
  - split; vm_compute; discriminate.
Defined.

(** X2. A capacity file that holds an integer from 0 to 100 in decimal,
    followed by a newline, is read as that integer. *)
Theorem integer_capacity_read_exactly (n : Z) :
  0 <= n <= 100 -> read_percentage (decimal_line n) = Some n.
Proof.
  intros H.
  assert (R : reads_back n = true).
  { apply (upto_all reads_back 101); [vm_compute; reflexivity | lia]. }
  unfold reads_back in R.
  destruct (read_percentage (decimal_line n)) as [p |]; [| discriminate R].
  apply Z.eqb_eq in R. now subst.
Qed.

Lemma integer_capacity_read_exactly_witness :
  read_percentage (decimal_line 87) = Some 87.
Proof. apply (integer_capacity_read_exactly 87). lia. Defined.

(** X3. The clamp of line 117 at its two ends: a capacity that parses to
    zero or less, or to minus infinity, is read as 0, and one that parses to
    100 or more, or to infinity, as 100. *)
Theorem capacity_clamped_at_the_ends (capacity : string) :
  ((exists q, atof capacity = Fin q /\ (q <= 0)%Q) \/ atof capacity = Inf true ->
   read_percentage capacity = Some 0) /\
  ((exists q, atof capacity = Fin q /\ (100 <= q)%Q) \/ atof capacity = Inf false ->
   read_percentage capacity = Some 100).
Proof.
  split; intros [[q [E H]] | E]; rewrite read_percentage_floor, E; try reflexivity.
  - cbn [to_float to_precision cap].
    pose proof (round_ne_monotone 24 ltac:(lia) q 0 H) as M.
    rewrite round_24_zero in M. apply Qle_bool_iff in M. rewrite M. reflexivity.
  - cbn [to_float to_precision cap].
    assert (M : (100 <= round_ne 24 q)%Q).
    { rewrite <- round_24_hundred. apply round_ne_monotone; [lia | exact H]. }
    assert (E0 : Qle_bool (round_ne 24 q) 0 = false).
    { destruct (Qle_bool (round_ne 24 q) 0) eqn:C; [| reflexivity].
      apply Qle_bool_iff in C. lra. }
    apply Qle_bool_iff in M. rewrite E0, M. reflexivity.
Qed.

Lemma capacity_clamped_at_the_ends_witness :
  read_percentage "-5" = Some 0 /\ read_percentage "250" = Some 100.
Proof.
  split.
  - apply (capacity_clamped_at_the_ends "-5"). left. exists (-5)%Q.
    split; [vm_compute; reflexivity | vm_compute; discriminate].
  - apply (capacity_clamped_at_the_ends "250"). left. exists 250%Q.
    split; [vm_compute; reflexivity | vm_compute; discriminate].
Defined.

(** X4. A capacity that does not start like a number (no white space, sign,
    digit or point first, nor the first letter of "inf" or "nan") is read as
    0, whatever follows. *)
Theorem non_numeric_capacity_reads_zero (c : ascii) (rest : string) :
  starts_number c = false -> read_percentage (String c rest) = Some 0.
Proof.
  destruct c as [[|] [|] [|] [|] [|] [|] [|] [|]]; intros H;
    first [discriminate H | vm_compute; reflexivity].
Qed.

Lemma non_numeric_capacity_reads_zero_witness :
  read_percentage "unknown" = Some 0.
Proof.
  apply (non_numeric_capacity_reads_zero "u"%char "nknown"). reflexivity.
Defined.

Lemma empty_true (s : string) : empty s = true -> s = "".
Proof. destruct s; [reflexivity | discriminate]. Qed.

Lemma empty_false (s : string) : empty s = false -> s <> "".
Proof. destruct s; [discriminate | discriminate]. Qed.

Lemma switch_status_raw (status : string) :
  switch_status status STATE_UNKNOWN = STATE_UNKNOWN \/
  (switch_status status STATE_UNKNOWN = STATE_CHARGING /\
   exists rest, status = String "1" rest) \/
  (switch_status status STATE_UNKNOWN = STATE_DISCHARGING /\
   exists rest, status = String "0" rest).
Proof.
  destruct status as [| c rest]; [left; reflexivity |].
  destruct c as [[|] [|] [|] [|] [|] [|] [|] [|]]; cbn; eauto.
Qed.

Lemma switch_status_not_full (status : string) :
  switch_status status STATE_UNKNOWN <> STATE_FULL.
Proof.
  destruct (switch_status_raw status) as [E | [[E _] | [E _]]]; rewrite E; discriminate.
Qed.

Lemma normalize_facts (raw : ChargeState) (t p : Z) :
  raw <> STATE_FULL ->
  (fst (normalize raw t p) = STATE_FULL <-> snd (normalize raw t p) = 100) /\
  (fst (normalize raw t p) = STATE_CHARGING ->
   snd (normalize raw t p) < t /\ raw = STATE_CHARGING) /\
  (fst (normalize raw t p) = STATE_DISCHARGING -> raw = STATE_DISCHARGING).
Proof.
  intros Hraw. unfold normalize. cbn [fst snd].
  destruct raw; cbn [state_eqb andb]; try contradiction.
  - destruct (Z.eqb_spec p 100); intuition (discriminate || lia).
  - destruct (Z.leb_spec t p); cbn [andb];
      [| destruct (Z.eqb_spec p 100)]; intuition (discriminate || lia).
  - destruct (Z.eqb_spec p 100); intuition (discriminate || lia).
Qed.

Lemma normalize_values (raw : ChargeState) (t p : Z) :
  percentage_value p -> percentage_value (snd (normalize raw t p)).
Proof.
  intros H. unfold normalize. cbn [snd].
  destruct (state_eqb raw STATE_CHARGING && (t <=? p)); [left; lia | exact H].
Qed.

Lemma read_percentage_value (capacity : string) (p : Z) :
  read_percentage capacity = Some p -> percentage_value p.
Proof.
  intros H. destruct (read_percentage_values capacity p H) as [R | [_ ->]];
    [left; exact R | right; reflexivity].
Qed.

Section Sampler.

Variable paths : Paths.

(** X5. Whatever a sample returns, it leaves the configuration of the
    module (battery, adapter, threshold, animation and the three label
    templates) and the files as they were, and it only adds events. *)
Theorem on_event_preserves_configuration (event : option InotifyEvent)
    (w w' : World) (b : bool) :
  on_event paths event w = Done b w' ->
  battery (this w') = battery (this w) /\
  adapter (this w') = adapter (this w) /\
  full_at (this w') = full_at (this w) /\
  animation_charging (this w') = animation_charging (this w) /\
  templates (this w') = templates (this w) /\
  files w' = files w /\
  exists added, trace w' = (trace w ++ added)%list.
Proof.
  intros H. destruct b.
  - destruct (on_event_true_inv paths event w w' H)
      as (p & lc & ld & lf & _ & _ & _ & _ & _ & _ & ->).
    repeat split; try reflexivity. eexists. reflexivity.
  - destruct (on_event_false_inv paths event w w' H) as [_ [msg ->]].
    repeat split; try reflexivity. eexists. reflexivity.
Qed.

(** X6. A sample returns false only when a file is empty, and its error
    line names the file: the status file when that one is empty, the
    capacity file otherwise. *)
Theorem on_event_false_names_the_file (event : option InotifyEvent) (w w' : World) :
  on_event paths event w = Done false w' ->
  (status_content paths w = "" /\
   w' = logged event w ("Failed to read " ++ status_path paths (this w))) \/
  (status_content paths w <> "" /\ capacity_content paths w = "" /\
   w' = logged event w ("Failed to read " ++ capacity_path paths (this w))).
Proof.
  intros H.
  destruct (empty_dec (status_content paths w)) as [Es | Es].
  - rewrite (on_event_status_empty paths event w Es) in H. injection H as <-.
    left. split; [apply empty_true, Es | reflexivity].
  - destruct (on_event_false_inv paths event w w' H) as [[C | Ec] _]; [congruence |].
    rewrite (on_event_capacity_empty paths event w Es Ec) in H. injection H as <-.
    right. split; [apply empty_false, Es |]. split; [apply empty_true, Ec | reflexivity].
Qed.


(** X8. After a successful sample the three tokenized labels are non-null,
    and each is its template with the placeholder replaced by the published
    percentage (100 when the threshold forced it) followed by '%'. *)
Theorem labels_show_published_percentage (event : option InotifyEvent) (w w' : World) :
  on_event paths event w = Done true w' ->
  exists lc ld lf,
    templates (this w) = (Some lc, Some ld, Some lf) /\
    label_charging_tokenized (this w') =
      Some {| text := string_replace (text lc) "%percentage%"
                        (to_string (percentage (this w')) ++ "%") |} /\
    label_discharging_tokenized (this w') =
      Some {| text := string_replace (text ld) "%percentage%"
                        (to_string (percentage (this w')) ++ "%") |} /\
    label_full_tokenized (this w') =
      Some {| text := string_replace (text lf) "%percentage%"
                        (to_string (percentage (this w')) ++ "%") |}.
Proof.
  intros H.
  destruct (on_event_true_inv paths event w w' H)
    as (p & lc & ld & lf & _ & _ & _ & Hc & Hd & Hf & ->).
  exists lc, ld, lf. unfold templates. rewrite Hc, Hd, Hf.
  repeat split; reflexivity.
Qed.

Lemma consistent_after (event : option InotifyEvent) (w w' : World) (b : bool) :
  consistent (this w) ->
  on_event paths event w = Done b w' ->
  consistent (this w').
Proof.
  intros C H. destruct b.
  - destruct (on_event_true_inv paths event w w' H)
      as (p & lc & ld & lf & _ & _ & Hp & Hc & Hd & Hf & ->).
    pose proof (read_percentage_value _ _ Hp) as R.
    unfold consistent, published. cbn [this].
    rewrite sampled_state, sampled_percentage.
    change (full_at (sampled (this w) (status_content paths w) p lc ld lf))
      with (full_at (this w)).
    destruct (normalize_facts _ (full_at (this w)) p
                (switch_status_not_full (status_content paths w))) as (F & Ch & _).
    split; [apply normalize_values; exact R |].
    split; [exact F |]. split; [intros S; apply (Ch S) |].
    right. exists lc, ld, lf. unfold templates.
    change (label_charging (sampled (this w) (status_content paths w) p lc ld lf))
      with (label_charging (this w)).
    change (label_discharging (sampled (this w) (status_content paths w) p lc ld lf))
      with (label_discharging (this w)).
    change (label_full (sampled (this w) (status_content paths w) p lc ld lf))
      with (label_full (this w)).
    rewrite Hc, Hd, Hf. split; reflexivity.
  - destruct (on_event_false_inv paths event w w' H) as [_ [msg ->]]. exact C.
Qed.

Lemma configuration_after (cfg : Config) (event : option InotifyEvent)
    (w w' : World) (b : bool) :
  (battery (this w) = battery (construct cfg) /\
   adapter (this w) = adapter (construct cfg) /\
   full_at (this w) = full_at (construct cfg) /\
   templates (this w) = templates (construct cfg)) ->
  on_event paths event w = Done b w' ->
  battery (this w') = battery (construct cfg) /\
  adapter (this w') = adapter (construct cfg) /\
  full_at (this w') = full_at (construct cfg) /\
  templates (this w') = templates (construct cfg).
Proof.
  intros C H. destruct b.
  - destruct (on_event_true_inv paths event w w' H)
      as (p & lc & ld & lf & _ & _ & _ & _ & _ & _ & ->). exact C.
  - destruct (on_event_false_inv paths event w w' H) as [_ [msg ->]]. exact C.
Qed.

Lemma deliver_invariant (P : BatteryModule -> Prop) :
  (forall event w w' b, P (this w) -> on_event paths event w = Done b w' -> P (this w')) ->
  forall ns w w', P (this w) -> deliver paths ns w = Some w' -> P (this w').
Proof.
  intros Step ns. induction ns as [| [event fs] ns IH]; intros w w' Hw H; simpl in H.
  - injection H as <-. exact Hw.
  - destruct (on_event paths event (with_files fs w)) as [b w1 | f] eqn:E; [| discriminate H].
    apply (IH w1 w'); [| exact H].
    apply (Step event (with_files fs w) w1 b); [exact Hw | exact E].
Qed.

(** X9. From the constructor on, through any notifications and whatever
    the files hold when each arrives: the percentage is in [0,100], or is the
    -2147483647 that a capacity read as NaN leaves; the state is FULL exactly
    at 100 and CHARGING only below the threshold; the tokenized labels are
    either all null with the initial snapshot (UNKNOWN, 0), or all non-null
    and showing the percentage of the snapshot; the configuration is the
    constructor's. *)
Theorem module_stays_consistent (cfg : Config) (ns : list Notification) (w : World) :
  deliver paths ns (constructed cfg) = Some w ->
  consistent (this w) /\
  battery (this w) = battery (construct cfg) /\
  adapter (this w) = adapter (construct cfg) /\
  full_at (this w) = full_at (construct cfg) /\
  templates (this w) = templates (construct cfg).
Proof.
  intros H. split.
  - apply (deliver_invariant consistent consistent_after ns (constructed cfg) w); [| exact H].
    unfold consistent, never_sampled, percentage_value. cbn.
    split; [left; lia |]. repeat split; try lia; try discriminate.
    left. split; reflexivity.
  - apply (deliver_invariant
             (fun m => battery m = battery (construct cfg) /\
                       adapter m = adapter (construct cfg) /\
                       full_at m = full_at (construct cfg) /\
                       templates m = templates (construct cfg))
             (configuration_after cfg) ns (constructed cfg) w); [| exact H].
    repeat split; reflexivity.
Qed.

(** X10. The format that [get_format] selects after a successful sample
    that read the percentage [p]: the full format exactly when the published
    percentage is 100, the charging format exactly when the status starts
    with '1' and [p] is below both the threshold and 100, the discharging
    format otherwise. *)
Theorem format_after_sample (event : option InotifyEvent) (w w' : World) (p : Z) :
  on_event paths event w = Done true w' ->
  read_percentage (capacity_content paths w) = Some p ->
  (get_format (this w') = FORMAT_FULL <-> percentage (this w') = 100) /\
  (get_format (this w') = FORMAT_CHARGING <->
   (exists rest, status_content paths w = String "1" rest) /\
   p < full_at (this w) /\ p < 100) /\
  (get_format (this w') = FORMAT_DISCHARGING <->
   ~ (exists rest, status_content paths w = String "1" rest) /\ p < 100).
Proof.
  intros H Hp.
  pose proof (read_percentage_upper _ _ Hp) as R.
  destruct (on_event_true_inv paths event w w' H)
    as (p0 & lc & ld & lf & _ & _ & Hp0 & _ & _ & _ & ->).
  rewrite Hp in Hp0. injection Hp0 as <-.
  rewrite get_format_cases. unfold published. cbn [this].
  rewrite sampled_state, sampled_percentage. unfold normalize. cbn [fst snd].
  assert (One : switch_status (status_content paths w) STATE_UNKNOWN = STATE_CHARGING <->
                exists rest, status_content paths w = String "1" rest).
  { split.
    - intros E. destruct (switch_status_raw (status_content paths w))
        as [E' | [[_ Hs] | [E' _]]]; [congruence | exact Hs | congruence].
    - intros [rest ->]. reflexivity. }
  remember (exists rest, status_content paths w = String "1" rest) as one eqn:Hone.
  clear Hone.
  destruct (switch_status (status_content paths w) STATE_UNKNOWN) eqn:E;
    cbn [state_eqb andb].
  - destruct (Z.eqb_spec p 100); intuition (discriminate || lia).
  - destruct (Z.leb_spec (full_at (this w)) p); cbn [andb];
      [| destruct (Z.eqb_spec p 100)]; intuition (discriminate || lia).
  - destruct (Z.eqb_spec p 100); intuition (discriminate || lia).
  - destruct (switch_status_raw (status_content paths w))
      as [E' | [[E' _] | [E' _]]]; congruence.
Qed.


Lemma hint_no_error (event : option InotifyEvent) : filter is_error (hint event) = [].
Proof. destruct event; reflexivity. Qed.

Lemma failed_reads_from (ns : list Notification) :
  forall w,
  Forall (fun n => read_fails paths (this w) (snd n)) ns ->
  exists w',
    deliver paths ns w = Some w' /\
    this w' = this w /\
    List.length (filter is_error (trace w')) =
      (List.length (filter is_error (trace w)) + List.length ns)%nat.
Proof.
  induction ns as [| [event fs] ns IH]; intros w Hall.
  - exists w. cbn. repeat split. lia.
  - inversion Hall as [| n ns' Hn Hns]; subst. cbn [snd] in Hn.
    assert (E : exists msg,
              on_event paths event (with_files fs w) =
              Done false (logged event (with_files fs w) msg)).
    { destruct (empty_dec (status_content paths (with_files fs w))) as [Es | Es].
      - eexists. apply on_event_status_empty, Es.
      - destruct Hn as [Hs | Hc].
        + unfold status_content in Es. cbn [this files with_files] in Es.
          rewrite Hs in Es. discriminate Es.
        + eexists. apply on_event_capacity_empty; [exact Es |].
          unfold capacity_content. cbn [this files with_files]. now rewrite Hc. }
    destruct E as [msg E].
    destruct (IH (logged event (with_files fs w) msg)) as (w' & D & T & L).
    { exact Hns. }
    exists w'. cbn [deliver]. rewrite E. split; [exact D |]. split; [exact T |].
    rewrite L. cbn [logged trace with_files].
    rewrite !filter_app, hint_no_error, !length_app. cbn. lia.
Qed.

(** X21. As long as every notification finds the status file or the
    capacity file empty, no call crashes (even with null label templates),
    the module stays exactly as the constructor left it, and each call has
    logged one error. *)
Theorem failed_reads_change_nothing (cfg : Config) (ns : list Notification) :
  Forall (fun n => read_fails paths (construct cfg) (snd n)) ns ->
  exists w,
    deliver paths ns (constructed cfg) = Some w /\
    this w = construct cfg /\
    get_format (this w) = FORMAT_DISCHARGING /\
    tokenized_labels (this w) = (None, None, None) /\
    List.length (filter is_error (trace w)) = List.length ns.
Proof.
  intros Hall.
  destruct (failed_reads_from ns (constructed cfg) Hall) as (w & D & T & L).
  exists w. split; [exact D |]. split; [exact T |]. rewrite T.
  split; [reflexivity |]. split; [reflexivity | exact L].
Qed.

End Sampler.

Lemma on_event_preserves_configuration_witness :
  battery (this (sample charging_87)) = battery (this charging_87) /\
  adapter (this (sample charging_87)) = adapter (this charging_87) /\
  full_at (this (sample charging_87)) = full_at (this charging_87) /\
  animation_charging (this (sample charging_87)) = animation_charging (this charging_87) /\
  templates (this (sample charging_87)) = templates (this charging_87) /\
  files (sample charging_87) = files charging_87 /\
  exists added, trace (sample charging_87) = (trace charging_87 ++ added)%list.
Proof.
  apply (on_event_preserves_configuration sysfs_paths None charging_87
           (sample charging_87) true).
  vm_compute. reflexivity.
Defined.

Lemma on_event_false_names_the_file_witness :
  (status_content sysfs_paths status_unreadable = "" /\
   sample status_unreadable =
   logged None status_unreadable
     ("Failed to read " ++ status_path sysfs_paths (this status_unreadable))) \/
  (status_content sysfs_paths status_unreadable <> "" /\
   capacity_content sysfs_paths status_unreadable = "" /\
   sample status_unreadable =
   logged None status_unreadable
     ("Failed to read " ++ capacity_path sysfs_paths (this status_unreadable))).
Proof.
  apply (on_event_false_names_the_file sysfs_paths None status_unreadable
           (sample status_unreadable)).
  vm_compute. reflexivity.
Defined.


Lemma labels_show_published_percentage_witness :
  exists lc ld lf,
    templates (this charging_99_6_full_at_95) = (Some lc, Some ld, Some lf) /\
    label_charging_tokenized (this (sample charging_99_6_full_at_95)) =
      Some {| text := string_replace (text lc) "%percentage%"
                        (to_string (percentage (this (sample charging_99_6_full_at_95)))
                         ++ "%") |} /\
    label_discharging_tokenized (this (sample charging_99_6_full_at_95)) =
      Some {| text := string_replace (text ld) "%percentage%"
                        (to_string (percentage (this (sample charging_99_6_full_at_95)))
                         ++ "%") |} /\
    label_full_tokenized (this (sample charging_99_6_full_at_95)) =
      Some {| text := string_replace (text lf) "%percentage%"
                        (to_string (percentage (this (sample charging_99_6_full_at_95)))
                         ++ "%") |}.
Proof.
  apply (labels_show_published_percentage sysfs_paths None charging_99_6_full_at_95
           (sample charging_99_6_full_at_95)).
  vm_compute. reflexivity.
Defined.

Lemma module_stays_consistent_witness :
  consistent (this (delivered (every_tag None) good_then_nan)) /\
  battery (this (delivered (every_tag None) good_then_nan)) =
    battery (construct (every_tag None)) /\
  adapter (this (delivered (every_tag None) good_then_nan)) =
    adapter (construct (every_tag None)) /\
  full_at (this (delivered (every_tag None) good_then_nan)) =
    full_at (construct (every_tag None)) /\
  templates (this (delivered (every_tag None) good_then_nan)) =
    templates (construct (every_tag None)).
Proof.
  apply (module_stays_consistent sysfs_paths (every_tag None) good_then_nan
           (delivered (every_tag None) good_then_nan)).
  vm_compute. reflexivity.
Defined.

Lemma format_after_sample_witness :
  (get_format (this (sample charging_87)) = FORMAT_FULL <->
   percentage (this (sample charging_87)) = 100) /\
  (get_format (this (sample charging_87)) = FORMAT_CHARGING <->
   (exists rest, status_content sysfs_paths charging_87 = String "1" rest) /\
   87 < full_at (this charging_87) /\ 87 < 100) /\
  (get_format (this (sample charging_87)) = FORMAT_DISCHARGING <->
   ~ (exists rest, status_content sysfs_paths charging_87 = String "1" rest) /\ 87 < 100).
Proof.
  apply (format_after_sample sysfs_paths None charging_87 (sample charging_87) 87);
    vm_compute; reflexivity.
Defined.


Lemma failed_reads_change_nothing_witness :
  exists w,
    deliver sysfs_paths two_failed_reads (constructed bar_only_when_full) = Some w /\
    this w = construct bar_only_when_full /\
    get_format (this w) = FORMAT_DISCHARGING /\
    tokenized_labels (this w) = (None, None, None) /\
    List.length (filter is_error (trace w)) = List.length two_failed_reads.
Proof.
  apply (failed_reads_change_nothing sysfs_paths bar_only_when_full two_failed_reads).
  apply Forall_cons; [left; vm_compute; reflexivity |].
  apply Forall_cons; [right; vm_compute; reflexivity | apply Forall_nil].
Defined.

End SamplerExtras.

(** ** More on the animation thread *)

Module AnimationExtras.

Import Float FloatFacts Libc Utils Drawtypes Battery Examples.
Import AnimationFacts Shapes.
Local Open Scope string_scope.
Local Open Scope Z_scope.

Lemma collapse_idempotent (r : Z) : collapse (collapse r) = collapse r.
Proof.
  unfold collapse. destruct (0 <? r) eqn:E; [reflexivity | now rewrite E].
Qed.

Lemma collapse_nonneg (r : Z) : 0 <= r -> collapse r = 0.
Proof. unfold collapse. intros H. destruct (Z.ltb_spec 0 r); lia. Qed.

Lemma iteration_after_load (dur : Q) (st : ChargeState) :
  iteration dur st = Lock :: LoadState st :: after_load dur st.
Proof. reflexivity. Qed.

(** The events of the inner loop are the passes for the observations it
    starts with. *)
Lemma inner_loop_events (dur : Q) (obs : list Observation) :
  forall retries, snd (inner_loop dur retries obs) = ticks dur (enabled_prefix obs).
Proof.
  induction obs as [| o obs IH]; intros retries; simpl.
  - reflexivity.
  - destruct o as [| st]; [reflexivity |].
    specialize (IH (if 0 <? retries then 0 else retries)).
    destruct (inner_loop dur (if 0 <? retries then 0 else retries) obs) as [[r o] t].
    cbn [snd] in *. rewrite IH. reflexivity.
Qed.

(** The inner loop over passes that end with the module disabled, and
    over passes that the observations cut short. *)
Lemma inner_loop_enabled_run (dur : Q) (sts : list ChargeState) :
  forall st retries rest,
  inner_loop dur retries (map Enabled (st :: sts) ++ Disabled :: rest) =
  (collapse retries, Some rest, ticks dur (st :: sts)).
Proof.
  induction sts as [| st' sts IH]; intros st retries rest.
  - reflexivity.
  - change (map Enabled (st :: st' :: sts) ++ Disabled :: rest)%list
      with (Enabled st :: (map Enabled (st' :: sts) ++ Disabled :: rest))%list.
    cbn [inner_loop]. fold (collapse retries).
    rewrite IH, collapse_idempotent. reflexivity.
Qed.

Lemma inner_loop_enabled_cut (dur : Q) (sts : list ChargeState) :
  forall st retries,
  inner_loop dur retries (map Enabled (st :: sts)) =
  (collapse retries, None, ticks dur (st :: sts)).
Proof.
  induction sts as [| st' sts IH]; intros st retries.
  - reflexivity.
  - change (map Enabled (st :: st' :: sts))
      with (Enabled st :: map Enabled (st' :: sts)).
    cbn [inner_loop]. fold (collapse retries).
    rewrite IH, collapse_idempotent. reflexivity.
Qed.

(** Every trace is a sequence of blocks. *)
Lemma ticks_blocks (dur : Q) (sts : list ChargeState) :
  ticks dur sts = flat_map (block dur) (map Some sts).
Proof.
  induction sts as [| st sts IH]; [reflexivity |].
  cbn [ticks flat_map map block]. fold (ticks dur sts). now rewrite IH.
Qed.

Lemma outer_loop_blocks (dur : Q) (fuel : nat) :
  forall retries obs,
  exists bs, events (outer_loop fuel dur retries obs) = flat_map (block dur) bs.
Proof.
  induction fuel as [| fuel IH]; intros retries obs; simpl.
  - destruct (0 <? retries); exists []; reflexivity.
  - destruct (0 <? retries); [| exists []; reflexivity].
    pose proof (inner_loop_events dur obs (retries - 1)) as Hin.
    destruct (inner_loop dur (retries - 1) obs) as [[r o] t]. cbn [snd] in Hin.
    destruct o as [rest |]; cbn [events].
    + destruct (IH r rest) as [bs Hbs].
      exists (map Some (enabled_prefix obs) ++ None :: bs)%list.
      rewrite flat_map_app, <- ticks_blocks, Hin. cbn [flat_map block].
      rewrite Hbs. reflexivity.
    + exists (map Some (enabled_prefix obs)). rewrite <- ticks_blocks. exact Hin.
Qed.

Lemma runner_blocks (animation : Animation) (obs : list Observation) :
  exists bs,
    events (animation_thread_runner animation obs) =
    Yield :: flat_map (block (frame_period animation)) bs.
Proof.
  unfold animation_thread_runner. cbn [events].
  destruct (outer_loop_blocks (frame_period animation) (Z.to_nat 5) 5 obs) as [bs ->].
  exists bs. reflexivity.
Qed.

(** Where a read of [state] sits in a sequence of blocks. *)
Lemma blocks_around_load (dur : Q) (bs : list (option ChargeState)) :
  forall pre post st,
  flat_map (block dur) bs = (pre ++ LoadState st :: post)%list ->
  (exists pre', pre = (pre' ++ [Lock])%list) /\
  (exists post', post = (after_load dur st ++ post')%list).
Proof.
  induction bs as [| b bs IH]; intros pre post st H.
  - destruct pre; discriminate H.
  - cbn [flat_map] in H. destruct b as [s |].
    + cbn [block] in H. rewrite iteration_after_load in H.
      destruct pre as [| e1 [| e2 [| e3 [| e4 [| e5 pre]]]]];
        destruct s; cbn in H; try discriminate H.
      all: try (injection H as <- <- <-; split; [exists []; reflexivity | eexists; reflexivity]).
      all: injection H as <- <- <- <- <- H;
        destruct (IH _ _ _ H) as [[pre' ->] Hpost];
        (split; [eexists (_ :: _ :: _ :: _ :: _ :: pre'); reflexivity | exact Hpost]).
    + cbn [block] in H. destruct pre as [| e pre]; [discriminate H |].
      cbn in H. injection H as <- H.
      destruct (IH _ _ _ H) as [[pre' ->] Hpost].
      split; [exists (cooldown :: pre'); reflexivity | exact Hpost].
Qed.

Lemma runner_around_load (animation : Animation) (obs : list Observation)
    (pre post : list Event) (st : ChargeState) :
  events (animation_thread_runner animation obs) = (pre ++ LoadState st :: post)%list ->
  (exists pre', pre = (pre' ++ [Lock])%list) /\
  (exists post', post = (after_load (frame_period animation) st ++ post')%list).
Proof.
  intros H. destruct (runner_blocks animation obs) as [bs E]. rewrite E in H.
  destruct pre as [| e pre]; [discriminate H |].
  cbn in H. injection H as <- H.
  destruct (blocks_around_load _ bs pre post st H) as [[pre' ->] Hpost].
  split; [exists (Yield :: pre'); reflexivity | exact Hpost].
Qed.

(** Idle passes of the outer loop. *)
Lemma outer_loop_idle (dur : Q) (k : nat) :
  forall fuel r obs, 0 <= r ->
  outer_loop (k + fuel) dur (Z.of_nat k + r) (repeat Disabled k ++ obs) =
  {| events := repeat cooldown k ++ events (outer_loop fuel dur r obs);
     ending := ending (outer_loop fuel dur r obs) |}.
Proof.
  induction k as [| k IH]; intros fuel r obs Hr.
  - cbn [repeat app Nat.add Z.of_nat Z.add]. now destruct (outer_loop fuel dur r obs).
  - change (S k + fuel)%nat with (S (k + fuel)).
    change (repeat Disabled (S k) ++ obs)%list
      with (Disabled :: (repeat Disabled k ++ obs))%list.
    cbn [outer_loop].
    assert (P : (0 <? Z.of_nat (S k) + r) = true) by (apply Z.ltb_lt; lia).
    rewrite P. cbn [inner_loop].
    replace (Z.of_nat (S k) + r - 1) with (Z.of_nat k + r) by lia.
    rewrite (IH fuel r obs Hr). reflexivity.
Qed.

Lemma outer_loop_exhausted (fuel : nat) (dur : Q) (obs : list Observation) :
  outer_loop fuel dur 0 obs = {| events := []; ending := Exited |}.
Proof. destruct fuel; reflexivity. Qed.

(** X12. Five passes of the outer loop that find the module disabled use
    up the retries: the thread sleeps 500 ms five times and returns, without
    a look at what it would observe later. *)
Theorem five_idle_passes_then_exit (animation : Animation) (n : nat)
    (rest : list Observation) :
  (5 <= n)%nat ->
  animation_thread_runner animation (repeat Disabled n ++ rest) =
  {| events := Yield :: repeat cooldown 5; ending := Exited |}.
Proof.
  intros Hn. set (dur := frame_period animation).
  assert (E : outer_loop 5 dur 5 (repeat Disabled n ++ rest) =
              {| events := repeat cooldown 5; ending := Exited |}).
  { replace n with (5 + (n - 5))%nat by lia.
    rewrite repeat_app, <- app_assoc.
    etransitivity;
      [exact (outer_loop_idle dur 5 0 0 (repeat Disabled (n - 5) ++ rest) (Z.le_refl 0)) |].
    rewrite outer_loop_exhausted. reflexivity. }
  change (animation_thread_runner animation (repeat Disabled n ++ rest))
    with {| events := Yield :: events (outer_loop 5 dur 5 (repeat Disabled n ++ rest));
            ending := ending (outer_loop 5 dur 5 (repeat Disabled n ++ rest)) |}.
  rewrite E. reflexivity.
Qed.

(** X13. The first pass of the outer loop that finds the module enabled is
    the last: after fewer than five idle passes, the inner loop runs for as
    long as the module is enabled; when it finds it disabled the thread
    sleeps 500 ms once more and returns, whatever follows. *)
Theorem first_enabled_pass_is_last (animation : Animation) (k : nat)
    (st : ChargeState) (sts : list ChargeState) (rest : list Observation) :
  (k < 5)%nat ->
  animation_thread_runner animation
    (repeat Disabled k ++ map Enabled (st :: sts) ++ Disabled :: rest) =
  {| events :=
       Yield :: repeat cooldown k ++
       ticks (frame_period animation) (st :: sts) ++ [cooldown];
     ending := Exited |}.
Proof.
  intros Hk. set (dur := frame_period animation).
  set (obs := (map Enabled (st :: sts) ++ Disabled :: rest)%list).
  assert (E : outer_loop 5 dur 5 (repeat Disabled k ++ obs) =
              {| events := repeat cooldown k ++ ticks dur (st :: sts) ++ [cooldown];
                 ending := Exited |}).
  { replace 5%nat with (k + S (4 - k))%nat by lia.
    replace 5 with (Z.of_nat k + (5 - Z.of_nat k)) by lia.
    rewrite (outer_loop_idle dur k (S (4 - k)) (5 - Z.of_nat k)) by lia.
    cbn [outer_loop].
    assert (P : (0 <? 5 - Z.of_nat k) = true) by (apply Z.ltb_lt; lia).
    unfold obs. rewrite P, inner_loop_enabled_run, collapse_nonneg by lia.
    rewrite outer_loop_exhausted. reflexivity. }
  change (animation_thread_runner animation (repeat Disabled k ++ obs))
    with {| events := Yield :: events (outer_loop 5 dur 5 (repeat Disabled k ++ obs));
            ending := ending (outer_loop 5 dur 5 (repeat Disabled k ++ obs)) |}.
  rewrite E. reflexivity.
Qed.

(** X14. While the module stays enabled the thread stays in the inner
    loop: after fewer than five idle passes, every observation of an enabled
    module is one pass of the inner loop, and the thread has not returned. *)
Theorem ticks_while_enabled (animation : Animation) (k : nat)
    (st : ChargeState) (sts : list ChargeState) :
  (k < 5)%nat ->
  animation_thread_runner animation (repeat Disabled k ++ map Enabled (st :: sts)) =
  {| events := Yield :: repeat cooldown k ++ ticks (frame_period animation) (st :: sts);
     ending := Waiting |}.
Proof.
  intros Hk. set (dur := frame_period animation).
  set (obs := map Enabled (st :: sts)).
  assert (E : outer_loop 5 dur 5 (repeat Disabled k ++ obs) =
              {| events := repeat cooldown k ++ ticks dur (st :: sts);
                 ending := Waiting |}).
  { replace 5%nat with (k + S (4 - k))%nat by lia.
    replace 5 with (Z.of_nat k + (5 - Z.of_nat k)) by lia.
    rewrite (outer_loop_idle dur k (S (4 - k)) (5 - Z.of_nat k)) by lia.
    cbn [outer_loop].
    assert (P : (0 <? 5 - Z.of_nat k) = true) by (apply Z.ltb_lt; lia).
    unfold obs. rewrite P, inner_loop_enabled_cut. reflexivity. }
  change (animation_thread_runner animation (repeat Disabled k ++ obs))
    with {| events := Yield :: events (outer_loop 5 dur 5 (repeat Disabled k ++ obs));
            ending := ending (outer_loop 5 dur 5 (repeat Disabled k ++ obs)) |}.
  rewrite E. reflexivity.
Qed.

(** X15. Every read of [state] that finds CHARGING is followed at once by
    the release of the lock, a broadcast and the frame sleep. *)
Theorem charging_read_broadcasts (animation : Animation) (obs : list Observation)
    (pre post : list Event) :
  events (animation_thread_runner animation obs) =
    (pre ++ LoadState STATE_CHARGING :: post)%list ->
  exists post',
    post = (Unlock :: Broadcast :: SleepSeconds (frame_period animation) :: post')%list.
Proof.
  intros H. destruct (runner_around_load animation obs pre post _ H) as [_ [post' ->]].
  exists post'. reflexivity.
Qed.

(** X16. A read of [state] that finds another state than CHARGING is
    followed by the log line, the frame sleep and only then the release of
    the lock: the thread sleeps a whole frame period with the lock held. *)
Theorem idle_read_sleeps_with_the_lock (animation : Animation)
    (obs : list Observation) (pre post : list Event) (st : ChargeState) :
  events (animation_thread_runner animation obs) = (pre ++ LoadState st :: post)%list ->
  st <> STATE_CHARGING ->
  (exists pre', pre = (pre' ++ [Lock])%list) /\
  exists post',
    post = (LogTrace "state != charging" ::
            SleepSeconds (frame_period animation) :: Unlock :: post')%list.
Proof.
  intros H Hst.
  destruct (runner_around_load animation obs pre post _ H) as [Hpre [post' ->]].
  split; [exact Hpre |]. exists post'.
  destruct st; try reflexivity. contradiction.
Qed.

Lemma blocks_lock_protocol (dur : Q) (bs : list (option ChargeState)) :
  lock_protocol false (flat_map (block dur) bs) = Some false /\
  outside_lock is_broadcast false (flat_map (block dur) bs) = true /\
  outside_lock is_cooldown false (flat_map (block dur) bs) = true.
Proof.
  induction bs as [| b bs (IH1 & IH2 & IH3)]; [repeat split |].
  cbn [flat_map]. destruct b as [[| | |] |]; cbn; auto.
Qed.

(** X17. The thread keeps the protocol of the lock: it takes the lock only
    when it does not hold it, releases it only when it does, and holds it no
    more when a run ends; it never broadcasts and never sleeps its 500 ms
    with the lock held. *)
Theorem runner_lock_discipline (animation : Animation) (obs : list Observation) :
  lock_protocol false (events (animation_thread_runner animation obs)) = Some false /\
  outside_lock is_broadcast false (events (animation_thread_runner animation obs)) = true /\
  outside_lock is_cooldown false (events (animation_thread_runner animation obs)) = true.
Proof.
  destruct (runner_blocks animation obs) as [bs ->].
  destruct (blocks_lock_protocol (frame_period animation) bs) as (P1 & P2 & P3).
  cbn [lock_protocol outside_lock is_broadcast is_cooldown andb]. auto.
Qed.

Lemma ticks_no_cooldown (dur : Q) (sts : list ChargeState) :
  filter is_cooldown (ticks dur sts) = [].
Proof.
  induction sts as [| st sts IH]; [reflexivity |].
  cbn [ticks flat_map]. fold (ticks dur sts). rewrite filter_app, IH.
  destruct st; reflexivity.
Qed.

Lemma outer_loop_cooldowns (dur : Q) (fuel : nat) :
  forall retries obs,
  (List.length (filter is_cooldown (events (outer_loop fuel dur retries obs))) <= fuel)%nat.
Proof.
  induction fuel as [| fuel IH]; intros retries obs; simpl.
  - destruct (0 <? retries); simpl; lia.
  - destruct (0 <? retries); [| simpl; lia].
    pose proof (inner_loop_events dur obs (retries - 1)) as Hin.
    destruct (inner_loop dur (retries - 1) obs) as [[r o] t]. cbn [snd] in Hin.
    subst t. destruct o as [rest |]; cbn [events].
    + rewrite filter_app, ticks_no_cooldown. cbn. specialize (IH r rest). lia.
    + rewrite ticks_no_cooldown. simpl. lia.
Qed.

(** X18. Whatever the thread observes, it sleeps its 500 ms cool-down at
    most five times in its life. *)
Theorem at_most_five_cooldowns (animation : Animation) (obs : list Observation) :
  (List.length (filter is_cooldown (events (animation_thread_runner animation obs))) <= 5)%nat.
Proof.
  unfold animation_thread_runner. cbn [events filter is_cooldown].
  apply (outer_loop_cooldowns (frame_period animation) 5).
Qed.

Lemma five_idle_passes_then_exit_witness :
  animation_thread_runner every_750_ms (repeat Disabled 7 ++ [Enabled STATE_CHARGING]) =
  {| events := Yield :: repeat cooldown 5; ending := Exited |}.
Proof.
  apply (five_idle_passes_then_exit every_750_ms 7 [Enabled STATE_CHARGING]). lia.
Defined.

Lemma first_enabled_pass_is_last_witness :
  animation_thread_runner every_750_ms
    (repeat Disabled 2 ++ map Enabled [STATE_CHARGING; STATE_FULL] ++
     Disabled :: [Enabled STATE_CHARGING]) =
  {| events :=
       Yield :: repeat cooldown 2 ++
       ticks (frame_period every_750_ms) [STATE_CHARGING; STATE_FULL] ++ [cooldown];
     ending := Exited |}.
Proof.
  apply (first_enabled_pass_is_last every_750_ms 2 STATE_CHARGING [STATE_FULL]
           [Enabled STATE_CHARGING]).
  lia.
Defined.

Lemma ticks_while_enabled_witness :
  animation_thread_runner every_750_ms
    (repeat Disabled 1 ++ map Enabled [STATE_CHARGING; STATE_CHARGING]) =
  {| events :=
       Yield :: repeat cooldown 1 ++
       ticks (frame_period every_750_ms) [STATE_CHARGING; STATE_CHARGING];
     ending := Waiting |}.
Proof.
  apply (ticks_while_enabled every_750_ms 1 STATE_CHARGING [STATE_CHARGING]). lia.
Defined.

Lemma charging_read_broadcasts_witness :
  exists post',
    [Unlock; Broadcast; SleepSeconds (3 # 4); cooldown] =
    (Unlock :: Broadcast :: SleepSeconds (frame_period every_750_ms) :: post')%list.
Proof.
  apply (charging_read_broadcasts every_750_ms [Enabled STATE_CHARGING; Disabled]
           [Yield; Lock]).
  vm_compute. reflexivity.
Defined.

Lemma idle_read_sleeps_with_the_lock_witness :
  (exists pre', [Yield; Lock] = (pre' ++ [Lock])%list) /\
  exists post',
    [LogTrace "state != charging"; SleepSeconds (3 # 4); Unlock; cooldown] =
    (LogTrace "state != charging" ::
     SleepSeconds (frame_period every_750_ms) :: Unlock :: post')%list.
Proof.
  apply (idle_read_sleeps_with_the_lock every_750_ms [Enabled STATE_FULL; Disabled]
           [Yield; Lock]
           [LogTrace "state != charging"; SleepSeconds (3 # 4); Unlock; cooldown]
           STATE_FULL).
  - vm_compute. reflexivity.
  - discriminate.
Defined.

End AnimationExtras.

(** ** The renderer's queries *)

Module BuildExtras.

Import Float Libc Utils Drawtypes Battery Examples.
Import SamplerFacts PercentageFacts SamplerSpec Lifecycle Shapes Scenarios SamplerExtras Build.
Local Open Scope string_scope.
Local Open Scope Z_scope.

Section Build.

Variable Bar : Type.
Variable Ramp : Type.
Variable tag_string : Tag -> string.

Lemma build_cases (m : BatteryModule) (r : Renderables Bar Ramp) (tag : string) :
  (exists t, tag = tag_string t /\ build tag_string m r tag = (true, [node_of m r t])) \/
  ((forall t, tag <> tag_string t) /\ build tag_string m r tag = (false, [])).
Proof.
  unfold build.
  destruct (String.eqb_spec tag (tag_string TAG_ANIMATION_CHARGING)) as [E1 | N1];
    [left; exists TAG_ANIMATION_CHARGING; auto |].
  destruct (String.eqb_spec tag (tag_string TAG_BAR_CAPACITY)) as [E2 | N2];
    [left; exists TAG_BAR_CAPACITY; auto |].
  destruct (String.eqb_spec tag (tag_string TAG_RAMP_CAPACITY)) as [E3 | N3];
    [left; exists TAG_RAMP_CAPACITY; auto |].
  destruct (String.eqb_spec tag (tag_string TAG_LABEL_CHARGING)) as [E4 | N4];
    [left; exists TAG_LABEL_CHARGING; auto |].
  destruct (String.eqb_spec tag (tag_string TAG_LABEL_DISCHARGING)) as [E5 | N5];
    [left; exists TAG_LABEL_DISCHARGING; auto |].
  destruct (String.eqb_spec tag (tag_string TAG_LABEL_FULL)) as [E6 | N6];
    [left; exists TAG_LABEL_FULL; auto |].
  right. split; [| reflexivity]. intros []; assumption.
Qed.

(** X19. [build] returns false exactly for a tag that is none of the six
    tag names, and then it makes no call on the builder; for one of the six
    it makes one call. *)
Theorem build_rejects_unknown_tags (m : BatteryModule) (r : Renderables Bar Ramp)
    (tag : string) :
  (fst (build tag_string m r tag) = false <-> forall t, tag <> tag_string t) /\
  (fst (build tag_string m r tag) = false -> snd (build tag_string m r tag) = []) /\
  (fst (build tag_string m r tag) = true ->
   exists t, tag = tag_string t /\ snd (build tag_string m r tag) = [node_of m r t]).
Proof.
  destruct (build_cases m r tag) as [[t [E B]] | [N B]]; rewrite B; cbn [fst snd].
  - split; [split; [discriminate | intros H; exfalso; exact (H t E)] |].
    split; [discriminate |]. intros _. exists t. auto.
  - split; [split; auto |]. split; [reflexivity | discriminate].
Qed.

Hypothesis tags_distinct : forall a b, tag_string a = tag_string b -> a = b.

Lemma build_known_tag (m : BatteryModule) (r : Renderables Bar Ramp) (t : Tag) :
  build tag_string m r (tag_string t) = (true, [node_of m r t]).
Proof.
  destruct (build_cases m r (tag_string t)) as [[t' [E B]] | [N B]].
  - apply tags_distinct in E. subst t'. exact B.
  - exfalso. exact (N t eq_refl).
Qed.

Variable paths : Paths.

(** X20. At any time in the life of the module (after the constructor and
    any notifications), with six distinct tag names: the bar and the ramp
    are built with the percentage of the snapshot, which is in [0,100] or is
    the -2147483647 that a capacity read as NaN leaves; and the three label
    tags are built either all with a null label, when no sample has
    succeeded yet, or each with its template showing the percentage of the
    snapshot. *)
Theorem build_over_the_lifetime (cfg : Config) (ns : list Notification)
    (w : World) (r : Renderables Bar Ramp) :
  deliver paths ns (constructed cfg) = Some w ->
  (exists p,
     (0 <= p <= 100 \/ p = -2147483647) /\
     build tag_string (this w) r (tag_string TAG_BAR_CAPACITY) =
       (true, [NodeBar (bar_capacity r) p]) /\
     build tag_string (this w) r (tag_string TAG_RAMP_CAPACITY) =
       (true, [NodeRamp (ramp_capacity r) p])) /\
  ((build tag_string (this w) r (tag_string TAG_LABEL_CHARGING) = (true, [NodeLabel None]) /\
    build tag_string (this w) r (tag_string TAG_LABEL_DISCHARGING) = (true, [NodeLabel None]) /\
    build tag_string (this w) r (tag_string TAG_LABEL_FULL) = (true, [NodeLabel None])) \/
   (exists lc ld lf,
      templates (construct cfg) = (Some lc, Some ld, Some lf) /\
      build tag_string (this w) r (tag_string TAG_LABEL_CHARGING) =
        (true, [NodeLabel (Some (tokenize lc (percentage (this w))))]) /\
      build tag_string (this w) r (tag_string TAG_LABEL_DISCHARGING) =
        (true, [NodeLabel (Some (tokenize ld (percentage (this w))))]) /\
      build tag_string (this w) r (tag_string TAG_LABEL_FULL) =
        (true, [NodeLabel (Some (tokenize lf (percentage (this w))))]))).
Proof.
  intros H.
  assert (C : consistent (this w)).
  { apply (deliver_invariant paths consistent (consistent_after paths) ns (constructed cfg) w);
      [| exact H].
    unfold consistent, never_sampled, percentage_value. cbn.
    split; [left; lia |]. repeat split; try lia; try discriminate.
    left. split; reflexivity. }
  assert (T : templates (this w) = templates (construct cfg)).
  { apply (deliver_invariant paths
             (fun m => battery m = battery (construct cfg) /\
                       adapter m = adapter (construct cfg) /\
                       full_at m = full_at (construct cfg) /\
                       templates m = templates (construct cfg))
             (configuration_after paths cfg) ns (constructed cfg) w); [| exact H].
    repeat split; reflexivity. }
  destruct C as (R & _ & _ & L). rewrite !build_known_tag. cbn [node_of]. split.
  - exists (percentage (this w)). split; [exact R | auto].
  - destruct L as [[N _] | (lc & ld & lf & Ht & Hk)].
    + left. unfold tokenized_labels in N. injection N as -> -> ->. auto.
    + right. exists lc, ld, lf. rewrite <- T. split; [exact Ht |].
      unfold tokenized_labels in Hk. injection Hk as -> -> ->. auto.
Qed.

End Build.

Lemma angle_tags_distinct (a b : Tag) : angle_tags a = angle_tags b -> a = b.
Proof. destruct a, b; intros H; first [reflexivity | discriminate H]. Qed.

Lemma build_over_the_lifetime_witness :
  (exists p,
     (0 <= p <= 100 \/ p = -2147483647) /\
     build angle_tags (this (delivered (every_tag None) good_then_nan))
       no_renderables (angle_tags TAG_BAR_CAPACITY) =
       (true, [NodeBar (bar_capacity no_renderables) p]) /\
     build angle_tags (this (delivered (every_tag None) good_then_nan))
       no_renderables (angle_tags TAG_RAMP_CAPACITY) =
       (true, [NodeRamp (ramp_capacity no_renderables) p])) /\
  ((build angle_tags (this (delivered (every_tag None) good_then_nan))
      no_renderables (angle_tags TAG_LABEL_CHARGING) = (true, [NodeLabel None]) /\
    build angle_tags (this (delivered (every_tag None) good_then_nan))
      no_renderables (angle_tags TAG_LABEL_DISCHARGING) = (true, [NodeLabel None]) /\
    build angle_tags (this (delivered (every_tag None) good_then_nan))
      no_renderables (angle_tags TAG_LABEL_FULL) = (true, [NodeLabel None])) \/
   (exists lc ld lf,
      templates (construct (every_tag None)) = (Some lc, Some ld, Some lf) /\
      build angle_tags (this (delivered (every_tag None) good_then_nan))
        no_renderables (angle_tags TAG_LABEL_CHARGING) =
        (true, [NodeLabel (Some (tokenize lc
           (percentage (this (delivered (every_tag None) good_then_nan)))))]) /\
      build angle_tags (this (delivered (every_tag None) good_then_nan))
        no_renderables (angle_tags TAG_LABEL_DISCHARGING) =
        (true, [NodeLabel (Some (tokenize ld
           (percentage (this (delivered (every_tag None) good_then_nan)))))]) /\
      build angle_tags (this (delivered (every_tag None) good_then_nan))
        no_renderables (angle_tags TAG_LABEL_FULL) =
        (true, [NodeLabel (Some (tokenize lf
           (percentage (this (delivered (every_tag None) good_then_nan)))))]))).
Proof.
  apply (build_over_the_lifetime unit unit angle_tags angle_tags_distinct sysfs_paths
           (every_tag None) good_then_nan
           (delivered (every_tag None) good_then_nan) no_renderables).
  vm_compute. reflexivity.
Defined.

End BuildExtras.
